(** * morse.h: a Morse code encoder/decoder over one constant table

    A shallow embedding of [morse_decode], [morse_reverse_char_array],
    [morse_encode], [morse_tests], [morse_usage] and [main] of morse.h,
    and the properties of the table, of the two conversions and of the
    command line program.

    Conventions.
    - [unsigned char], [int] and [size_t] values are integers of [Z];
      the one place where [size_t] arithmetic can wrap
      ([length - 1] in [morse_reverse_char_array]) wraps explicitly.
    - A caller-supplied array is a [list Z]; a load or a store outside
      of it is undefined behaviour in C and is the outcome
      [OutOfBounds] here.
    - The NUL-terminated argument of [morse_decode] is the list of the
      bytes at [in[0]], [in[1]], ...; the byte after the last one of
      the list is the terminating NUL. *)

From Stdlib Require Import String Ascii ZArith Bool Lia List.
Import ListNotations.
Open Scope Z_scope.

(** ** Outcomes of a run *)

Inductive res (A : Type) : Type :=
| Ok (a : A)
| OutOfBounds
| OutOfFuel.

Arguments Ok {A} a.
Arguments OutOfBounds {A}.
Arguments OutOfFuel {A}.

Definition bind {A B : Type} (m : res A) (k : A -> res B) : res B :=
  match m with
  | Ok a => k a
  | OutOfBounds => OutOfBounds
  | OutOfFuel => OutOfFuel
  end.

Notation "x <- m ;; k" := (bind m (fun x => k))
  (at level 61, m at next level, right associativity).
Notation "' pat <- m ;; k" := (bind m (fun x => match x with pat => k end))
  (at level 61, pat pattern, m at next level, right associativity).

(** ** Bytes, arrays and [size_t] *)

Definition bytes_of (s : string) : list Z :=
  map (fun a => Z.of_N (N_of_ascii a)) (list_ascii_of_string s).

Definition SIZE_MAX : Z := 2 ^ 64 - 1.

(** A [size_t] result, reduced modulo [SIZE_MAX + 1]. *)
Definition size_t (z : Z) : Z := z mod (SIZE_MAX + 1).

Definition in_range (i : Z) (buf : list Z) : bool :=
  (0 <=? i) && (i <? Z.of_nat (length buf)).

Fixpoint update (i : nat) (v : Z) (buf : list Z) : list Z :=
  match buf, i with
  | [], _ => []
  | _ :: tl, O => v :: tl
  | x :: tl, S i' => x :: update i' v tl
  end.

(** [buf[i]] as an rvalue. *)
Definition load (i : Z) (buf : list Z) : res Z :=
  if in_range i buf then Ok (nth (Z.to_nat i) buf 0) else OutOfBounds.

(** [buf[i] = v]. *)
Definition store (i : Z) (v : Z) (buf : list Z) : res (list Z) :=
  if in_range i buf then Ok (update (Z.to_nat i) v buf) else OutOfBounds.

(** ** The table *)

Definition MORSE_DOT : Z := 46.   (* '.' *)
Definition MORSE_DASH : Z := 45.  (* '-' *)
Definition STAR : Z := 42.        (* '*' *)
Definition QUERY : Z := 63.       (* '?' *)

Definition MORSE_CODEC_literal : string := "**ETIANMSURWDKGOHVF?L?PJBXCYZQ??"%string.

(** The array a string literal denotes: its characters and a final NUL. *)
Definition MORSE_CODEC : list Z := bytes_of MORSE_CODEC_literal ++ [0].

Definition sizeof_MORSE_CODEC : Z := Z.of_nat (length MORSE_CODEC).

Definition MORSE_CODEC_LENGTH : Z := sizeof_MORSE_CODEC - 1.

(** [MORSE_CODEC[n]]. *)
Definition codec_at (n : Z) : Z := nth (Z.to_nat n) MORSE_CODEC 0.

(** ** morse_decode *)

(** The branch taken at the terminating NUL.  The second component
    lists the indices at which [MORSE_CODEC] is read. *)
Definition decode_at_nul (n : Z) : Z * list Z :=
  if n >? MORSE_CODEC_LENGTH then (QUERY, []) else (codec_at n, [n]).

(** The [for] loop of [morse_decode]; [inp] is the input from [in[j]]
    on, and [n] the tree index.  When the loop condition fails [out]
    still holds its initial ['?']. *)
Fixpoint decode_loop (n : Z) (inp : list Z) {struct inp} : Z * list Z :=
  if n <? MORSE_CODEC_LENGTH then
    match inp with
    | [] => decode_at_nul n
    | ch :: rest =>
        if ch =? MORSE_DOT then decode_loop (Z.shiftl n 1) rest
        else if ch =? MORSE_DASH then decode_loop (Z.shiftl n 1 + 1) rest
        else if ch =? 0 then decode_at_nul n
        else (-1, [])
    end
  else (QUERY, []).

Definition morse_decode_run (inp : list Z) : Z * list Z := decode_loop 1 inp.

Definition morse_decode (inp : list Z) : Z := fst (morse_decode_run inp).

(** ** morse_reverse_char_array *)

Fixpoint reverse_loop (k : nat) (i last : Z) (r : list Z) : res (list Z) :=
  match k with
  | O => Ok r
  | S k' =>
      t <- load i r ;;
      x <- load (size_t (last - i)) r ;;
      r1 <- store i x r ;;
      r2 <- store (size_t (last - i)) t r1 ;;
      reverse_loop k' (i + 1) last r2
  end.

Definition morse_reverse_char_array (r : list Z) (length : Z) : res (list Z) :=
  let last := size_t (length - 1) in
  reverse_loop (Z.to_nat (length / 2)) 0 last r.

(** ** morse_encode *)

(** [for (i = 0; i < 6; i++) out[i] = 0;], [k] iterations left. *)
Fixpoint clear_loop (k : nat) (i : Z) (out : list Z) : res (list Z) :=
  match k with
  | O => Ok out
  | S k' => out' <- store i 0 out ;; clear_loop k' (i + 1) out'
  end.

(** The table scan, [k] iterations left; the result is [pos]. *)
Fixpoint scan_loop (k : nat) (i : Z) (c : Z) : Z :=
  match k with
  | O => SIZE_MAX
  | S k' => if codec_at i =? c then i else scan_loop k' (i + 1) c
  end.

Definition find_pos (c : Z) : Z :=
  scan_loop (Z.to_nat MORSE_CODEC_LENGTH) 0 c.

(** [for (i = 0; pos/2; i++) { out[i] = ...; pos /= 2; }]; the result
    is the final [i] and the buffer. *)
Fixpoint emit_loop (fuel : nat) (pos i : Z) (out : list Z) : res (Z * list Z) :=
  if pos / 2 =? 0 then Ok (i, out)
  else
    match fuel with
    | O => OutOfFuel
    | S fuel' =>
        out' <- store i (if negb (Z.land pos 1 =? 0) then MORSE_DASH else MORSE_DOT) out ;;
        emit_loop fuel' (pos / 2) (i + 1) out'
    end.

(** The result is the returned [int] and the final contents of [out].
    [pos] is a 64-bit [size_t], so 64 halvings bring it to zero.
    [MORSE_CODEC[pos]] is evaluated only when [pos != SIZE_MAX]. *)
Definition morse_encode (c : Z) (out : list Z) : res (Z * list Z) :=
  out0 <- clear_loop 6 0 out ;;
  let pos := find_pos c in
  if (if pos =? SIZE_MAX then true
      else (codec_at pos =? STAR) || (codec_at pos =? QUERY))
  then Ok (-1, out0)
  else
    '(i, out1) <- emit_loop 64 pos 0 out0 ;;
    out2 <- morse_reverse_char_array out1 i ;;
    Ok (0, out2).

(** ** morse_tests *)

Fixpoint tests_loop (fuel : nat) (ch : Z) : res Z :=
  if ch <=? 90 then
    match fuel with
    | O => OutOfFuel
    | S fuel' =>
        '(e, buf) <- morse_encode ch [0; 0; 0; 0; 0; 0] ;;
        if e <? 0 then Ok (-1)
        else
          let r := morse_decode buf in
          if r <? 0 then Ok (-2)
          else if negb (r =? ch) then Ok (- ch)
          else tests_loop fuel' (ch + 1)
    end
  else Ok 0.

Definition morse_tests : res Z := tests_loop 26 65.

(** ** The command line program *)

Definition toupper (c : Z) : Z :=
  if (97 <=? c) && (c <=? 122) then c - 32 else c.

(** [!strcmp(a, b)] on NUL-free strings. *)
Fixpoint bytes_eqb (a b : list Z) : bool :=
  match a, b with
  | [], [] => true
  | x :: a', y :: b' => (x =? y) && bytes_eqb a' b'
  | _, _ => false
  end.

(** What ["%s"] prints of a buffer: the bytes before its first NUL. *)
Fixpoint c_string (buf : list Z) : res (list Z) :=
  match buf with
  | [] => OutOfBounds
  | b :: tl => if b =? 0 then Ok [] else s <- c_string tl ;; Ok (b :: s)
  end.

Section CLI.

(** Whether a write of some bytes to [stdout] succeeds, given what
    has been written so far. *)
Variable stdout_accepts : list Z -> list Z -> bool.

(** [fprintf(stdout, ...) < 0] is [None]. *)
Definition fprintf_stdout (written bytes : list Z) : option (list Z) :=
  if stdout_accepts written bytes then Some (written ++ bytes) else None.

(** The loop over the operands of [decode] and what follows it.
    ["%c"] converts its [int] argument to [unsigned char]. *)
Fixpoint decode_operands (operands : list (list Z)) (written : list Z)
  : Z * list Z :=
  match operands with
  | [] =>
      match fprintf_stdout written [10] with
      | None => (5, written)
      | Some written' => (0, written')
      end
  | arg :: operands' =>
      match fprintf_stdout written [morse_decode arg mod 256] with
      | None => (4, written)
      | Some written' => decode_operands operands' written'
      end
  end.

(** The inner loop of [encode] over the characters of one operand;
    [Some status] is a [return status] from [main]. *)
Fixpoint encode_operand (arg : list Z) (written : list Z)
  : res (option Z * list Z) :=
  match arg with
  | [] => Ok (None, written)
  | ch :: arg' =>
      if ch =? 0 then Ok (None, written)
      else
        '(e, out) <- morse_encode (toupper ch mod 256) [0; 0; 0; 0; 0; 0] ;;
        if e <? 0 then Ok (Some 6, written)
        else
          s <- c_string out ;;
          match fprintf_stdout written (s ++ [32]) with
          | None => Ok (Some 7, written)
          | Some written' => encode_operand arg' written'
          end
  end.

Fixpoint encode_operands (operands : list (list Z)) (written : list Z)
  : res (Z * list Z) :=
  match operands with
  | [] => Ok (0, written)
  | arg :: operands' =>
      '(status, written1) <- encode_operand arg written ;;
      match status with
      | Some st => Ok (st, written1)
      | None =>
          match fprintf_stdout written1 [10] with
          | None => Ok (8, written1)
          | Some written2 => encode_operands operands' written2
          end
      end
  end.

(** The result is the exit status and what was written to [stdout];
    the usage text goes to [stderr] and is left out. *)
Definition main (argv : list (list Z)) : res (Z * list Z) :=
  t <- morse_tests ;;
  if t <? 0 then Ok (1, [])
  else
    match argv with
    | _ :: cmd :: operands =>
        let decode := -1 in
        let decode := if bytes_eqb cmd (bytes_of "encode") then 0 else decode in
        let decode := if bytes_eqb cmd (bytes_of "decode") then 1 else decode in
        if decode <? 0 then Ok (3, [])
        else if negb (decode =? 0) then Ok (decode_operands operands [])
        else encode_operands operands []
    | _ => Ok (2, [])
    end.

End CLI.

(** ** morse_usage *)

Definition MORSE_AUTHOR : list Z := bytes_of "Richard James Howe".
Definition MORSE_LICENSE : list Z := bytes_of "The Unlicense".
Definition MORSE_EMAIL : list Z := bytes_of "howe.r.j.89@gmail.com".
Definition MORSE_REPO : list Z := bytes_of "https://github.com/howerj/morse".
Definition MORSE_PROJECT : list Z := bytes_of "A Morse code encoder/decoder".
Definition MORSE_VERSION_STRING : list Z := bytes_of "0x010000ul".

(** [fmt] with [arg0] in the place of its ["%s"]. *)
Definition usage_fmt (arg0 : list Z) : list Z :=
  bytes_of "Usage:   " ++ arg0 ++ bytes_of " encode|decode strings..." ++ [10; 10] ++
  bytes_of "Project: " ++ MORSE_PROJECT ++ [10] ++
  bytes_of "Author:  " ++ MORSE_AUTHOR ++ [10] ++
  bytes_of "License: " ++ MORSE_LICENSE ++ [10] ++
  bytes_of "Repo:    " ++ MORSE_REPO ++ [10] ++
  bytes_of "Email:   " ++ MORSE_EMAIL ++ [10] ++
  bytes_of "Version: " ++ MORSE_VERSION_STRING ++ [10; 10] ++
  bytes_of "This utility returns zero on success an non-zero on failure." ++ [10] ++
  bytes_of "Errors a printed to stderr, and output to stdout. This codebook" ++ [10] ++
  bytes_of "only includes the upper case alphabet." ++ [10; 10] ++
  bytes_of "Characters:" ++ [10; 10].

(** The lines of [tree], each ended by a newline in the text. *)
Definition tree_lines : list string :=
  [ "        DIT or '.' <-- * --> DAH or '-'";
    "                /             \";
    "               E               T";
    "             /   \           /   \";
    "           I       A       N       M";
    "          / \     / \     / \     / \";
    "         S   U   R   W   D   K   G   O";
    "        / \ / \ / \ / \ / \ / \ / \ / \";
    "        H V F ? L ? P J B X C Y Z Q ? ?" ]%string.

Definition tree : list Z := flat_map (fun l => bytes_of l ++ [10]) tree_lines.

(** ["%5s"]: at least five columns, padded with spaces on the left. *)
Definition printf_5s (s : list Z) : list Z := repeat 32 (5 - length s) ++ s.

(** What ["\t\t%c %5s %c %5s\n"] prints. *)
Definition usage_row (ch : Z) (s1 s2 : list Z) : list Z :=
  [9; 9; ch mod 256; 32] ++ printf_5s s1 ++
  [32; (ch + 13) mod 256; 32] ++ printf_5s s2 ++ [10].

(** What ["\n\nTree:\n\n%s\n\n"] prints. *)
Definition usage_tree : list Z :=
  [10; 10] ++ bytes_of "Tree:" ++ [10; 10] ++ tree ++ [10; 10].

Section Usage.

(** Whether a write to the stream [out] succeeds, given what has been
    written to it so far. *)
Variable out_accepts : list Z -> list Z -> bool.

(** The loop over ['A'..'M'] and the rest of the function. *)
Fixpoint usage_loop (fuel : nat) (ch : Z) (written : list Z)
  : res (Z * list Z) :=
  if ch <=? 77 then
    match fuel with
    | O => OutOfFuel
    | S fuel' =>
        '(e1, buf1) <- morse_encode ch [0; 0; 0; 0; 0; 0] ;;
        if e1 <? 0 then Ok (-1, written)
        else
          '(e2, buf2) <- morse_encode (ch + 13) [0; 0; 0; 0; 0; 0] ;;
          if e2 <? 0 then Ok (-1, written)
          else
            s1 <- c_string buf1 ;;
            s2 <- c_string buf2 ;;
            match fprintf_stdout out_accepts written (usage_row ch s1 s2) with
            | None => Ok (-1, written)
            | Some written' => usage_loop fuel' (ch + 1) written'
            end
    end
  else
    match fprintf_stdout out_accepts written usage_tree with
    | None => Ok (-1, written)
    | Some written' => Ok (0, written')
    end.

(** The result is the returned [int] and what the stream holds. *)
Definition morse_usage (arg0 : list Z) (written : list Z) : res (Z * list Z) :=
  match fprintf_stdout out_accepts written (usage_fmt arg0) with
  | None => Ok (-1, written)
  | Some written' => usage_loop 13 65 written'
  end.

End Usage.

(** A [stdout] on which every write succeeds. *)
Definition stdout_always : list Z -> list Z -> bool := fun _ _ => true.

(** ** Vocabulary of the properties *)

Definition zeroed : list Z := [0; 0; 0; 0; 0; 0].

Definition letter (x : Z) : Prop := 65 <= x <= 90.

Definition sentinel (x : Z) : Prop := x = STAR \/ x = QUERY.

Definition symbol (x : Z) : Prop := x = MORSE_DOT \/ x = MORSE_DASH.

(** The characters of the table: the array without its final NUL. *)
Definition table_chars : list Z := firstn (Z.to_nat MORSE_CODEC_LENGTH) MORSE_CODEC.

(** The indices [lo], [lo + 1], ..., [lo + k - 1]. *)
Definition indices (lo : Z) (k : nat) : list Z :=
  map (fun j => lo + Z.of_nat j) (seq 0 k).

(** What [morse_encode] does once [out] is cleared and [pos] is known. *)
Definition encode_at (pos : Z) (out0 : list Z) : res (Z * list Z) :=
  if (if pos =? SIZE_MAX then true
      else (codec_at pos =? STAR) || (codec_at pos =? QUERY))
  then Ok (-1, out0)
  else
    '(i, out1) <- emit_loop 64 pos 0 out0 ;;
    out2 <- morse_reverse_char_array out1 i ;;
    Ok (0, out2).

(** An input with a byte that is no symbol and not the terminator,
    before any terminator. *)
Definition invalid_before_end (inp : list Z) : Prop :=
  exists pre b post,
    inp = pre ++ b :: post /\ ~ In 0 pre /\
    b <> MORSE_DOT /\ b <> MORSE_DASH /\ b <> 0.

(** Boolean forms, for the checks that run over the whole table. *)

Definition is_symbol (x : Z) : bool := (x =? MORSE_DOT) || (x =? MORSE_DASH).

Definition is_letter (x : Z) : bool := (65 <=? x) && (x <=? 90).

Definition is_sentinel (x : Z) : bool := (x =? STAR) || (x =? QUERY).

(** [buf] holds [k] symbols and then only NULs. *)
Definition code_word_in (k : nat) (buf : list Z) : bool :=
  forallb is_symbol (firstn k buf) && forallb (Z.eqb 0) (skipn k buf).

(** A successful outcome leaves a code word of at most [maxlen]
    symbols in a six byte buffer; a failed one leaves it cleared. *)
Definition encode_outcome_ok (maxlen : nat) (r : res (Z * list Z)) : bool :=
  match r with
  | Ok (e, buf) =>
      (length buf =? 6)%nat &&
      (if e =? 0 then existsb (fun k => code_word_in k buf) (seq 0 (S maxlen))
       else (e =? -1) && forallb (Z.eqb 0) buf)
  | _ => false
  end.

Definition roundtrip_ok (c : Z) : bool :=
  match morse_encode c zeroed with
  | Ok (e, buf) => (e =? 0) && (morse_decode buf =? c)
  | _ => false
  end.

(** Further vocabulary. *)

(** What [morse_encode] leaves in a cleared buffer for [c], as ["%s"]
    prints it. *)
Definition code_word (c : Z) : list Z :=
  match morse_encode c zeroed with
  | Ok (_, buf) => match c_string buf with Ok s => s | _ => [] end
  | _ => []
  end.

Definition alphabetic (ch : Z) : Prop := 65 <= ch <= 90 \/ 97 <= ch <= 122.

(** What the [encode] command writes for one operand, and for all. *)
Definition encoded_operand (arg : list Z) : list Z :=
  flat_map (fun ch => code_word (toupper ch) ++ [32]) arg.

Definition encoded_operands (operands : list (list Z)) : list Z :=
  flat_map (fun arg => encoded_operand arg ++ [10]) operands.

(** The bytes the [decode] command writes for its operands. *)
Definition decoded_operands (operands : list (list Z)) : list Z :=
  map (fun arg => morse_decode arg mod 256) operands.

Definition letter_code_ok (c : Z) : bool :=
  match morse_encode c zeroed with
  | Ok (e, buf) =>
      let w := code_word c in
      (e =? 0) && forallb is_symbol w &&
      (1 <=? length w)%nat && (length w <=? 4)%nat &&
      bytes_eqb buf (w ++ repeat 0 (6 - length w)) &&
      (Z.of_nat (length w) =? Z.log2 (find_pos c)) &&
      (fst (morse_decode_run w) =? c) &&
      bytes_eqb (snd (morse_decode_run w)) [find_pos c]
  | _ => false
  end.

(** All the words of at most [k] symbols. *)
Fixpoint words (k : nat) : list (list Z) :=
  match k with
  | O => [[]]
  | S k' => [] :: flat_map (fun w => [MORSE_DOT :: w; MORSE_DASH :: w]) (words k')
  end.

Definition decode_encode_ok (w : list Z) : bool :=
  negb (is_letter (morse_decode w)) ||
  match morse_encode (morse_decode w) zeroed with
  | Ok (e, buf) => (e =? 0) && bytes_eqb buf (w ++ repeat 0 (6 - length w))
  | _ => false
  end.

(** The rows of the table of characters. *)
Definition usage_rows (lo : Z) (k : nat) : list Z :=
  flat_map (fun ch => usage_row ch (code_word ch) (code_word (ch + 13)))
           (indices lo k).

(** The node labels of the drawn tree, row by row: the letters and
    sentinels on the lines below the legend. *)
Definition tree_nodes : list Z :=
  filter (fun b => is_letter b || is_sentinel b)
         (flat_map bytes_of (tl tree_lines)).

(** * Properties *)

(** ** Arrays and index ranges *)

Lemma in_indices (lo : Z) (k : nat) (i : Z) :
  lo <= i < lo + Z.of_nat k -> In i (indices lo k).
Proof.
  intros Hi. unfold indices. apply in_map_iff.
  exists (Z.to_nat (i - lo)). split; [lia|].
  apply in_seq. lia.
Qed.

Lemma forallb_indices (f : Z -> bool) (lo : Z) (k : nat) :
  forallb f (indices lo k) = true ->
  forall i, lo <= i < lo + Z.of_nat k -> f i = true.
Proof.
  intros Hall i Hi. rewrite forallb_forall in Hall.
  apply Hall, in_indices, Hi.
Qed.

Lemma all_nul_repeat (l : list Z) :
  forallb (Z.eqb 0) l = true -> l = repeat 0 (length l).
Proof.
  induction l as [|x l IH]; cbn [forallb length repeat]; [reflexivity|].
  intros H. apply andb_prop in H. destruct H as [Hx Hl].
  apply Z.eqb_eq in Hx. subst x. f_equal. apply IH, Hl.
Qed.

Lemma all_symbols (l : list Z) :
  forallb is_symbol l = true -> Forall symbol l.
Proof.
  intros H. apply Forall_forall. intros x Hx.
  rewrite forallb_forall in H. specialize (H x Hx).
  unfold is_symbol in H. apply orb_prop in H. unfold symbol.
  destruct H as [H|H]; apply Z.eqb_eq in H; auto.
Qed.

Lemma code_word_in_shape (k : nat) (buf : list Z) :
  length buf = 6%nat -> (k <= 6)%nat -> code_word_in k buf = true ->
  exists w, length w = k /\ Forall symbol w /\
            buf = w ++ repeat 0 (6 - k).
Proof.
  intros Hlen Hk H. unfold code_word_in in H.
  apply andb_prop in H. destruct H as [Hsym Hnul].
  exists (firstn k buf). split; [|split].
  - rewrite length_firstn. lia.
  - apply all_symbols, Hsym.
  - apply all_nul_repeat in Hnul. rewrite length_skipn, Hlen in Hnul.
    rewrite <- Hnul. symmetry. apply firstn_skipn.
Qed.

(** ** The table scan *)

Lemma scan_loop_spec (c : Z) (k : nat) :
  forall i,
    scan_loop k i c = SIZE_MAX \/
    (i <= scan_loop k i c < i + Z.of_nat k /\ codec_at (scan_loop k i c) = c).
Proof.
  induction k as [|k IH]; intros i; simpl scan_loop.
  - left. reflexivity.
  - destruct (codec_at i =? c) eqn:E.
    + right. apply Z.eqb_eq in E. split; [lia | exact E].
    + destruct (IH (i + 1)) as [H|[H1 H2]]; [left; exact H|].
      right. split; [lia | exact H2].
Qed.

Lemma MORSE_CODEC_LENGTH_32 : MORSE_CODEC_LENGTH = 32.
Proof. reflexivity. Qed.

Lemma find_pos_spec (c : Z) :
  find_pos c = SIZE_MAX \/
  (0 <= find_pos c < MORSE_CODEC_LENGTH /\ codec_at (find_pos c) = c).
Proof.
  unfold find_pos.
  destruct (scan_loop_spec c (Z.to_nat MORSE_CODEC_LENGTH) 0) as [H|[H1 H2]].
  - left. exact H.
  - right. split; [|exact H2]. rewrite MORSE_CODEC_LENGTH_32 in *. lia.
Qed.

Lemma table_entry_kind (i : Z) :
  0 <= i < MORSE_CODEC_LENGTH -> sentinel (codec_at i) \/ letter (codec_at i).
Proof.
  intros Hi.
  assert (H : is_sentinel (codec_at i) || is_letter (codec_at i) = true).
  { apply (forallb_indices
             (fun j => is_sentinel (codec_at j) || is_letter (codec_at j)) 0 32);
      [vm_compute; reflexivity | rewrite MORSE_CODEC_LENGTH_32 in Hi; lia]. }
  apply orb_prop in H. destruct H as [H|H].
  - left. unfold is_sentinel in H. apply orb_prop in H. unfold sentinel.
    destruct H as [H|H]; apply Z.eqb_eq in H; auto.
  - right. unfold is_letter in H. apply andb_prop in H. unfold letter. lia.
Qed.

(** ** morse_encode *)

Lemma clear_loop_six (out : list Z) :
  length out = 6%nat -> clear_loop 6 0 out = Ok zeroed.
Proof.
  intros H.
  destruct out as [|a [|b [|c [|d [|e [|f [|g out]]]]]]]; try discriminate.
  reflexivity.
Qed.

Lemma morse_encode_at (c : Z) (out : list Z) :
  length out = 6%nat -> morse_encode c out = encode_at (find_pos c) zeroed.
Proof.
  intros H. unfold morse_encode. rewrite (clear_loop_six out H). reflexivity.
Qed.

(** The loop of [morse_encode] ends within its budget of 64 rounds for
    every [pos] a [size_t] can hold. *)
Lemma emit_loop_fuel (fuel : nat) :
  forall pos i out,
    0 <= pos < 2 ^ Z.of_nat fuel -> emit_loop fuel pos i out <> OutOfFuel.
Proof.
  induction fuel as [|fuel IH]; intros pos i out Hpos.
  - simpl in *. replace pos with 0 by lia. discriminate.
  - cbn [emit_loop]. destruct (pos / 2 =? 0) eqn:E; [discriminate|].
    unfold store. destruct (in_range i out); cbn [bind]; [|discriminate].
    apply IH. rewrite Nat2Z.inj_succ, Z.pow_succ_r in Hpos by lia.
    split; [apply Z.div_pos; lia | apply Z.div_lt_upper_bound; lia].
Qed.

Lemma emit_loop_size_t (pos i : Z) (out : list Z) :
  0 <= pos <= SIZE_MAX -> emit_loop 64 pos i out <> OutOfFuel.
Proof.
  intros Hpos. apply emit_loop_fuel.
  change (2 ^ Z.of_nat 64) with (SIZE_MAX + 1). lia.
Qed.

Lemma encode_at_outcome (pos : Z) :
  pos = SIZE_MAX \/ 0 <= pos < MORSE_CODEC_LENGTH ->
  encode_outcome_ok 4 (encode_at pos zeroed) = true.
Proof.
  intros [->|H]; [vm_compute; reflexivity|].
  apply (forallb_indices (fun p => encode_outcome_ok 4 (encode_at p zeroed)) 0 32);
    [vm_compute; reflexivity | rewrite MORSE_CODEC_LENGTH_32 in H; lia].
Qed.

Lemma encode_at_failure (pos : Z) (out0 : list Z) (r : Z) (out' : list Z) :
  encode_at pos out0 = Ok (r, out') -> r < 0 -> out' = out0.
Proof.
  unfold encode_at.
  destruct (if pos =? SIZE_MAX then true else _).
  - intros H _. inversion H. reflexivity.
  - destruct (emit_loop 64 pos 0 out0) as [[i out1]| |]; cbn [bind];
      try discriminate.
    destruct (morse_reverse_char_array out1 i) as [out2| |]; cbn [bind];
      try discriminate.
    intros H Hr. inversion H. lia.
Qed.

(** The code words of ['E'], ['T'] and ['Q'], in both directions. *)
Lemma literal_vectors :
  morse_encode 69 zeroed = Ok (0, bytes_of "." ++ [0; 0; 0; 0; 0]) /\
  morse_encode 84 zeroed = Ok (0, bytes_of "-" ++ [0; 0; 0; 0; 0]) /\
  morse_encode 81 zeroed = Ok (0, bytes_of "--.-" ++ [0; 0]) /\
  morse_decode (bytes_of ".") = 69 /\
  morse_decode (bytes_of "-") = 84 /\
  morse_decode (bytes_of "--.-") = 81.
Proof. repeat split. Qed.

(** C1. For every letter [c] of ['A'..'Z'], [morse_encode] succeeds
    (returns 0, within the caller's six byte buffer) and [morse_decode]
    of the code word it leaves in the buffer is [c]. *)
Theorem encode_decode_roundtrip (c : Z) (out : list Z) :
  letter c -> length out = 6%nat ->
  exists w, morse_encode c out = Ok (0, w) /\ morse_decode w = c.
Proof.
  intros Hc Hout.
  assert (H : roundtrip_ok c = true).
  { apply (forallb_indices roundtrip_ok 65 26);
      [vm_compute; reflexivity | unfold letter in Hc; lia]. }
  unfold roundtrip_ok in H.
  rewrite (morse_encode_at c out Hout).
  rewrite (morse_encode_at c zeroed eq_refl) in H.
  destruct (encode_at (find_pos c) zeroed) as [[e w]| |]; try discriminate.
  apply andb_prop in H. destruct H as [He Hw].
  apply Z.eqb_eq in He, Hw. subst e. exists w. split; [reflexivity | exact Hw].
Qed.

Lemma encode_decode_roundtrip_Q :
  letter 81 /\ length [7; 7; 7; 7; 7; 7] = 6%nat /\
  exists w, morse_encode 81 [7; 7; 7; 7; 7; 7] = Ok (0, w) /\ morse_decode w = 81.
Proof.
  split; [unfold letter; lia|]. split; [reflexivity|].
  apply (encode_decode_roundtrip 81 [7; 7; 7; 7; 7; 7]);
    [unfold letter; lia | reflexivity].
Defined.

(** C4. For every byte [c] that is not a letter of ['A'..'Z'], the
    sentinels ['*'] and ['?'] among them, [morse_encode] returns -1:
    the scan either finds no entry equal to [c], or finds it at an
    index whose entry is a sentinel. *)
Theorem encode_rejects_non_letters (c : Z) (out : list Z) :
  ~ letter c -> length out = 6%nat ->
  morse_encode c out = Ok (-1, zeroed) /\
  (find_pos c = SIZE_MAX \/ sentinel (codec_at (find_pos c))).
Proof.
  intros Hc Hout. rewrite (morse_encode_at c out Hout). unfold encode_at.
  destruct (find_pos_spec c) as [H|[Hrange Hat]].
  - rewrite H, Z.eqb_refl. split; [reflexivity | left; reflexivity].
  - destruct (table_entry_kind _ Hrange) as [Hs|Hl];
      [|rewrite Hat in Hl; contradiction].
    split; [|right; exact Hs].
    destruct (find_pos c =? SIZE_MAX); [reflexivity|].
    destruct Hs as [Hs|Hs]; rewrite Hs; reflexivity.
Qed.

Lemma encode_rejects_sentinels_and_digits :
  (~ letter 42 /\ morse_encode 42 zeroed = Ok (-1, zeroed)) /\
  (~ letter 63 /\ morse_encode 63 zeroed = Ok (-1, zeroed)) /\
  (~ letter 49 /\ find_pos 49 = SIZE_MAX).
Proof.
  assert (H42 : ~ letter 42) by (unfold letter; lia).
  assert (H63 : ~ letter 63) by (unfold letter; lia).
  assert (H49 : ~ letter 49) by (unfold letter; lia).
  split; [split; [exact H42|]|split; [split; [exact H63|]|split; [exact H49|]]].
  - exact (proj1 (encode_rejects_non_letters 42 zeroed H42 eq_refl)).
  - exact (proj1 (encode_rejects_non_letters 63 zeroed H63 eq_refl)).
  - destruct (proj2 (encode_rejects_non_letters 49 zeroed H49 eq_refl)) as [H|H];
      [exact H | reflexivity].
Defined.

(** C7. Every code word a successful [morse_encode] produces is at most
    5 symbols, each ['.'] or ['-'], followed by NULs; for every input
    all the stores of [morse_encode] fall inside the six byte buffer
    (no run ends in [OutOfBounds]). *)
Theorem encode_stays_in_buffer (c : Z) (out : list Z) :
  length out = 6%nat ->
  exists r out',
    morse_encode c out = Ok (r, out') /\ length out' = 6%nat /\
    (r = 0 ->
     exists w, (length w <= 5)%nat /\ Forall symbol w /\
               out' = w ++ repeat 0 (6 - length w)).
Proof.
  intros Hout. rewrite (morse_encode_at c out Hout).
  assert (H : encode_outcome_ok 4 (encode_at (find_pos c) zeroed) = true).
  { apply encode_at_outcome. destruct (find_pos_spec c) as [H|[H _]]; auto. }
  destruct (encode_at (find_pos c) zeroed) as [[e buf]| |]; try discriminate.
  cbn [encode_outcome_ok] in H. apply andb_prop in H. destruct H as [Hlen H].
  apply Nat.eqb_eq in Hlen.
  exists e, buf. split; [reflexivity|]. split; [exact Hlen|].
  intros He. subst e. cbn [Z.eqb] in H.
  apply existsb_exists in H. destruct H as [k [Hk Hw]].
  apply in_seq in Hk.
  destruct (code_word_in_shape k buf Hlen ltac:(lia) Hw) as [w [Hwl [Hsym Hbuf]]].
  exists w. rewrite Hwl. split; [lia|]. split; [exact Hsym | exact Hbuf].
Qed.

Lemma encode_stays_in_buffer_J :
  length [1; 2; 3; 4; 5; 6] = 6%nat /\
  exists r out',
    morse_encode 74 [1; 2; 3; 4; 5; 6] = Ok (r, out') /\ length out' = 6%nat /\
    (r = 0 ->
     exists w, (length w <= 5)%nat /\ Forall symbol w /\
               out' = w ++ repeat 0 (6 - length w)).
Proof.
  split; [reflexivity|].
  exact (encode_stays_in_buffer 74 [1; 2; 3; 4; 5; 6] eq_refl).
Defined.

(** C10. Whenever [morse_encode] returns a negative value, all six
    bytes of the caller's buffer are 0: the buffer is cleared before
    the scan and nothing is stored on the error path. *)
Theorem failed_encode_leaves_buffer_zeroed
  (c : Z) (out : list Z) (r : Z) (out' : list Z) :
  length out = 6%nat -> morse_encode c out = Ok (r, out') -> r < 0 ->
  out' = zeroed.
Proof.
  intros Hout. rewrite (morse_encode_at c out Hout).
  apply encode_at_failure.
Qed.

Lemma failed_encode_leaves_buffer_zeroed_lowercase :
  length [9; 8; 7; 6; 5; 4] = 6%nat /\
  morse_encode 97 [9; 8; 7; 6; 5; 4] = Ok (-1, zeroed) /\ -1 < 0 /\
  zeroed = zeroed.
Proof.
  split; [reflexivity|]. split; [reflexivity|]. split; [lia|].
  apply (failed_encode_leaves_buffer_zeroed 97 [9; 8; 7; 6; 5; 4] (-1) zeroed);
    [reflexivity | reflexivity | lia].
Defined.

(** ** morse_decode *)

Lemma shiftl_1 (n : Z) : Z.shiftl n 1 = 2 * n.
Proof. rewrite Z.shiftl_mul_pow2 by lia. lia. Qed.

Lemma decode_loop_end (n : Z) (inp : list Z) :
  MORSE_CODEC_LENGTH <= n -> decode_loop n inp = (QUERY, []).
Proof.
  intros Hn. apply Z.ltb_ge in Hn.
  destruct inp; cbn [decode_loop]; rewrite Hn; reflexivity.
Qed.

Lemma decode_at_nul_in_table (n : Z) :
  n < MORSE_CODEC_LENGTH -> decode_at_nul n = (codec_at n, [n]).
Proof.
  intros Hn. unfold decode_at_nul.
  destruct (n >? MORSE_CODEC_LENGTH) eqn:E; [|reflexivity].
  apply Z.gtb_lt in E. lia.
Qed.

(** The three ways a run of the loop ends: a rejected byte, the
    initial ['?'] with no table read, or one read inside the table. *)
Lemma decode_loop_outcome (inp : list Z) :
  forall n, 1 <= n ->
    decode_loop n inp = (-1, []) \/
    decode_loop n inp = (QUERY, []) \/
    exists m, n <= m < MORSE_CODEC_LENGTH /\ decode_loop n inp = (codec_at m, [m]).
Proof.
  induction inp as [|ch rest IH]; intros n Hn;
    (destruct (Z.lt_ge_cases n MORSE_CODEC_LENGTH) as [Hlt|Hge];
     [|right; left; apply decode_loop_end, Hge]);
    cbn [decode_loop]; rewrite (proj2 (Z.ltb_lt _ _) Hlt).
  - right; right. exists n. split; [lia | apply decode_at_nul_in_table, Hlt].
  - destruct (ch =? MORSE_DOT); [|destruct (ch =? MORSE_DASH); [|destruct (ch =? 0)]].
    + rewrite shiftl_1.
      destruct (IH (2 * n) ltac:(lia)) as [H|[H|[m [Hm H]]]]; auto.
      right; right. exists m. split; [lia | exact H].
    + rewrite shiftl_1.
      destruct (IH (2 * n + 1) ltac:(lia)) as [H|[H|[m [Hm H]]]]; auto.
      right; right. exists m. split; [lia | exact H].
    + right; right. exists n. split; [lia | apply decode_at_nul_in_table, Hlt].
    + left. reflexivity.
Qed.

Lemma decode_loop_reads (inp : list Z) (n : Z) :
  1 <= n ->
  Forall (fun m => 1 <= m < MORSE_CODEC_LENGTH) (snd (decode_loop n inp)).
Proof.
  intros Hn.
  destruct (decode_loop_outcome inp n Hn) as [H|[H|[m [Hm H]]]]; rewrite H;
    cbn [snd]; constructor; [lia | constructor].
Qed.

(** A byte that is no symbol and no NUL, met while the tree index is
    still inside the table, ends the run with -1. *)
Lemma decode_loop_rejects (pre : list Z) (b : Z) (post : list Z) :
  Forall symbol pre -> b <> MORSE_DOT -> b <> MORSE_DASH -> b <> 0 ->
  forall n, 1 <= n -> (n + 1) * 2 ^ Z.of_nat (length pre) <= MORSE_CODEC_LENGTH ->
    decode_loop n (pre ++ b :: post) = (-1, []).
Proof.
  intros Hpre Hdot Hdash Hnul. rewrite MORSE_CODEC_LENGTH_32.
  induction Hpre as [|s pre Hs Hpre IH]; intros n Hn Hb.
  - cbn [length Z.of_nat Z.pow] in Hb. cbn [app decode_loop].
    rewrite (proj2 (Z.ltb_lt n MORSE_CODEC_LENGTH))
      by (rewrite MORSE_CODEC_LENGTH_32; lia).
    apply Z.eqb_neq in Hdot, Hdash, Hnul. rewrite Hdot, Hdash, Hnul. reflexivity.
  - cbn [length] in Hb. rewrite Nat2Z.inj_succ, Z.pow_succ_r in Hb by lia.
    assert (Hp : 1 <= 2 ^ Z.of_nat (length pre)) by (apply Z.pow_le_mono_r with (b := 0); lia).
    cbn [app decode_loop].
    rewrite (proj2 (Z.ltb_lt n MORSE_CODEC_LENGTH))
      by (rewrite MORSE_CODEC_LENGTH_32; nia).
    rewrite shiftl_1. destruct Hs as [-> | ->].
    + cbn [Z.eqb MORSE_DOT Pos.eqb]. apply IH; nia.
    + cbn [Z.eqb MORSE_DASH MORSE_DOT Pos.eqb]. apply IH; nia.
Qed.

(** Once the symbols read push the tree index to the table length or
    beyond, the loop condition fails and the later bytes are not read. *)
Lemma decode_loop_overflow (pre : list Z) (rest : list Z) :
  Forall symbol pre ->
  forall n, 1 <= n -> MORSE_CODEC_LENGTH <= n * 2 ^ Z.of_nat (length pre) ->
    decode_loop n (pre ++ rest) = (QUERY, []).
Proof.
  intros Hpre.
  induction Hpre as [|s pre Hs Hpre IH]; intros n Hn Hb.
  - cbn [length Z.of_nat Z.pow] in Hb. apply decode_loop_end. lia.
  - destruct (Z.lt_ge_cases n MORSE_CODEC_LENGTH) as [Hlt|Hge];
      [|apply decode_loop_end, Hge].
    cbn [length] in Hb. rewrite Nat2Z.inj_succ, Z.pow_succ_r in Hb by lia.
    assert (Hp : 1 <= 2 ^ Z.of_nat (length pre)) by (apply Z.pow_le_mono_r with (b := 0); lia).
    cbn [app decode_loop]. rewrite (proj2 (Z.ltb_lt _ _) Hlt).
    rewrite shiftl_1. destruct Hs as [-> | ->].
    + cbn [Z.eqb MORSE_DOT Pos.eqb]. apply IH; nia.
    + cbn [Z.eqb MORSE_DASH MORSE_DOT Pos.eqb]. apply IH; nia.
Qed.

Lemma repeat_dot_symbols (k : nat) : Forall symbol (repeat MORSE_DOT k).
Proof.
  apply Forall_forall. intros x Hx. apply repeat_spec in Hx. left. exact Hx.
Qed.

(** C2, as stated, fails: after five symbols the tree index has left
    the table, the loop ends, and a sixth byte that is no symbol is
    never looked at; the result is ['?'], not -1. *)
Lemma decode_ignores_byte_after_five_symbols :
  invalid_before_end (bytes_of ".....x") /\
  morse_decode (bytes_of ".....x") = QUERY /\
  morse_decode (bytes_of ".....x") <> -1.
Proof.
  split; [|split; [reflexivity | discriminate]].
  exists (repeat MORSE_DOT 5), 120, []. split; [reflexivity|].
  split; [|repeat split; discriminate].
  intros Hin. apply repeat_spec in Hin. discriminate.
Qed.

(** C2, amended. When the first byte that is neither ['.'] nor ['-']
    is not the NUL and is one of the first five bytes, [morse_decode]
    returns -1 whatever follows that byte, and no table entry is read. *)
Theorem decode_rejects_invalid_symbol (pre : list Z) (b : Z) (post : list Z) :
  Forall symbol pre -> (length pre <= 4)%nat ->
  b <> MORSE_DOT -> b <> MORSE_DASH -> b <> 0 ->
  morse_decode (pre ++ b :: post) = -1 /\
  morse_decode_run (pre ++ b :: post) = (-1, []).
Proof.
  intros Hpre Hlen Hdot Hdash Hnul.
  assert (H : morse_decode_run (pre ++ b :: post) = (-1, [])).
  { unfold morse_decode_run.
    apply decode_loop_rejects; try assumption; [lia|].
    rewrite MORSE_CODEC_LENGTH_32.
    assert (2 ^ Z.of_nat (length pre) <= 2 ^ 4)
      by (apply Z.pow_le_mono_r; lia).
    lia. }
  split; [unfold morse_decode; rewrite H; reflexivity | exact H].
Qed.

Lemma decode_rejects_invalid_symbol_at_4 :
  Forall symbol (bytes_of "-.-.") /\ (length (bytes_of "-.-.") <= 4)%nat /\
  morse_decode (bytes_of "-.-." ++ 32 :: bytes_of ".-") = -1 /\
  morse_decode_run (bytes_of "-.-." ++ 32 :: bytes_of ".-") = (-1, []).
Proof.
  assert (Hs : Forall symbol (bytes_of "-.-."))
    by (repeat constructor; (left; reflexivity) || (right; reflexivity)).
  assert (Hl : (length (bytes_of "-.-.") <= 4)%nat) by (cbn; lia).
  split; [exact Hs|]. split; [exact Hl|].
  apply (decode_rejects_invalid_symbol (bytes_of "-.-.") 32 (bytes_of ".-") Hs Hl);
    discriminate.
Defined.

(** C5. [morse_decode] of six or more ['.'] returns ['?'], a result
    that is not negative, whatever comes after them. *)
Theorem decode_six_or_more_dots (k : nat) (rest : list Z) :
  (6 <= k)%nat ->
  morse_decode (repeat MORSE_DOT k ++ rest) = QUERY /\
  0 <= morse_decode (repeat MORSE_DOT k ++ rest).
Proof.
  intros Hk.
  assert (H : morse_decode (repeat MORSE_DOT k ++ rest) = QUERY).
  { unfold morse_decode, morse_decode_run.
    rewrite decode_loop_overflow; [reflexivity | apply repeat_dot_symbols | lia |].
    rewrite repeat_length, MORSE_CODEC_LENGTH_32.
    assert (2 ^ 6 <= 2 ^ Z.of_nat k) by (apply Z.pow_le_mono_r; lia).
    lia. }
  rewrite H. split; [reflexivity | unfold QUERY; lia].
Qed.

Lemma decode_six_or_more_dots_7 :
  (6 <= 7)%nat /\
  morse_decode (repeat MORSE_DOT 7 ++ []) = QUERY /\
  0 <= morse_decode (repeat MORSE_DOT 7 ++ []).
Proof.
  split; [lia|]. apply (decode_six_or_more_dots 7 []). lia.
Defined.

(** C6. [morse_decode] of the empty code word, an input whose first
    byte is the NUL, returns ['*'], the table entry at tree index 1,
    a result that is not negative. *)
Theorem decode_empty_code_word (rest : list Z) :
  morse_decode [] = STAR /\ morse_decode (0 :: rest) = STAR /\
  codec_at 1 = STAR /\ morse_decode_run [] = (codec_at 1, [1]) /\
  0 <= morse_decode [].
Proof.
  repeat split; try reflexivity. discriminate.
Qed.

(** C8. For every input, every index at which [morse_decode] reads
    [MORSE_CODEC] is below [MORSE_CODEC_LENGTH], the bound tested by
    the loop condition; no read is past the end of the table. *)
Theorem decode_table_reads_in_bounds (inp : list Z) :
  Forall (fun n => 0 <= n < MORSE_CODEC_LENGTH) (snd (morse_decode_run inp)) /\
  MORSE_CODEC_LENGTH < sizeof_MORSE_CODEC.
Proof.
  split; [|reflexivity].
  eapply Forall_impl; [|apply (decode_loop_reads inp 1); lia].
  cbn beta. intros n Hn. lia.
Qed.

(** ** The table as a tree *)

Lemma table_entry_once (i : Z) :
  0 <= i < MORSE_CODEC_LENGTH ->
  sentinel (codec_at i) \/
  (letter (codec_at i) /\ count_occ Z.eq_dec table_chars (codec_at i) = 1%nat).
Proof.
  intros Hi.
  pose (f := fun j =>
    is_sentinel (codec_at j) ||
    (is_letter (codec_at j) &&
     (count_occ Z.eq_dec table_chars (codec_at j) =? 1)%nat)).
  assert (H : f i = true).
  { apply (forallb_indices f 0 32);
      [vm_compute; reflexivity | rewrite MORSE_CODEC_LENGTH_32 in Hi; lia]. }
  unfold f in H. apply orb_prop in H. destruct H as [H|H].
  - left. unfold is_sentinel in H. apply orb_prop in H. unfold sentinel.
    destruct H as [H|H]; apply Z.eqb_eq in H; auto.
  - right. apply andb_prop in H. destruct H as [Hl Hc].
    apply Nat.eqb_eq in Hc. unfold is_letter in Hl. apply andb_prop in Hl.
    unfold letter. split; [lia | exact Hc].
Qed.

(** C3, as stated, fails: the array has 33 bytes, indexed 0..32, but
    the one at index 32 is the NUL that ends the string literal, which
    is neither a sentinel nor a letter; the table proper
    ([MORSE_CODEC_LENGTH] characters) has 32 entries, not 33. *)
Lemma codec_table_has_32_characters :
  sizeof_MORSE_CODEC = 33 /\ MORSE_CODEC_LENGTH <> 33 /\
  length table_chars <> 33%nat /\
  ~ (forall i, 0 <= i <= 32 -> sentinel (codec_at i) \/ letter (codec_at i)).
Proof.
  split; [reflexivity|]. split; [discriminate|]. split; [discriminate|].
  intros H. destruct (H 32 ltac:(lia)) as [[Hs|Hs]|Hl].
  - discriminate Hs.
  - discriminate Hs.
  - unfold letter in Hl. change (codec_at 32) with 0 in Hl. lia.
Qed.

(** C3, amended. The table is the 32 characters at indices 0..31 of a
    33 byte array whose last byte is a NUL.  It is laid out as a binary
    tree in heap order: decoding starts at index 1, a ['.'] moves from
    index [i] to [2 * i], a ['-'] to [2 * i + 1], and the NUL reads the
    entry at [i].  Index 0 is padding: no decode reads it and no
    character is encoded from it.  Every entry at 0..31 other than the
    sentinels ['*'] and ['?'] is a letter of ['A'..'Z'] that occurs
    exactly once. *)
Theorem codec_table_layout (i : Z) (rest : list Z) :
  0 <= i < MORSE_CODEC_LENGTH ->
  (MORSE_CODEC_LENGTH = 32 /\ length table_chars = 32%nat /\
   sizeof_MORSE_CODEC = 33 /\ codec_at 32 = 0) /\
  (sentinel (codec_at i) \/
   (letter (codec_at i) /\
    count_occ Z.eq_dec table_chars (codec_at i) = 1%nat)) /\
  (morse_decode_run rest = decode_loop 1 rest /\
   decode_loop i (MORSE_DOT :: rest) = decode_loop (2 * i) rest /\
   decode_loop i (MORSE_DASH :: rest) = decode_loop (2 * i + 1) rest /\
   decode_loop i [] = (codec_at i, [i])) /\
  (Forall (fun n => 1 <= n) (snd (morse_decode_run rest)) /\
   encode_at 0 zeroed = Ok (-1, zeroed)).
Proof.
  intros Hi. split; [repeat split|]. split; [apply table_entry_once, Hi|].
  pose proof (proj2 (Z.ltb_lt _ _) (proj2 Hi)) as Hlt.
  split; [|split; [|reflexivity]].
  - split; [reflexivity|].
    cbn [decode_loop]. rewrite Hlt, shiftl_1. cbn [Z.eqb MORSE_DOT MORSE_DASH Pos.eqb].
    split; [reflexivity|]. split; [reflexivity|].
    apply decode_at_nul_in_table. lia.
  - eapply Forall_impl; [|apply (decode_loop_reads rest 1); lia].
    cbn beta. intros n Hn. lia.
Qed.

Lemma codec_table_layout_at_K :
  0 <= 13 < MORSE_CODEC_LENGTH /\
  codec_at 13 = 75 /\
  count_occ Z.eq_dec table_chars 75 = 1%nat /\
  decode_loop 13 [MORSE_DOT] = (codec_at 26, [26]) /\
  decode_loop 13 [MORSE_DASH] = (codec_at 27, [27]).
Proof.
  assert (Hi : 0 <= 13 < MORSE_CODEC_LENGTH) by (rewrite MORSE_CODEC_LENGTH_32; lia).
  destruct (codec_table_layout 13 [] Hi) as [_ [Honce [[_ [Hdot [Hdash _]]] _]]].
  split; [exact Hi|]. split; [reflexivity|]. split.
  - destruct Honce as [[Hs|Hs]|[_ Hc]]; [discriminate Hs | discriminate Hs | exact Hc].
  - rewrite Hdot, Hdash. split; reflexivity.
Defined.

(** ** The command line program *)

Lemma morse_tests_pass : morse_tests = Ok 0.
Proof. vm_compute. reflexivity. Qed.

(** On a [stdout] that takes every write, the [decode] command ends
    with status 0 and one byte per operand, whatever [morse_decode]
    returned for them. *)
Lemma decode_operands_status (operands : list (list Z)) :
  forall written,
    decode_operands stdout_always operands written =
    (0, written ++ map (fun arg => morse_decode arg mod 256) operands ++ [10]).
Proof.
  induction operands as [|arg operands IH]; intros written;
    cbn [decode_operands fprintf_stdout stdout_always map app].
  - reflexivity.
  - rewrite IH, <- app_assoc. reflexivity.
Qed.

(** C9, on the code. [morse_decode] fails on the operand ["x"], yet
    [main] writes the byte 255 for it, goes on to decode the operand
    ["."] to ['E'], and exits with status 0. *)
Theorem main_decode_failure_is_not_fatal :
  morse_decode (bytes_of "x") = -1 /\
  main stdout_always (map bytes_of ["morse"; "decode"; "x"; "."]%string)
  = Ok (0, [255; 69; 10]).
Proof.
  split; [reflexivity|]. vm_compute. reflexivity.
Qed.

(** The [encode] command, next to it, does stop at the first failure
    of [morse_encode]: status 6, and nothing of the later characters
    or operands is written. *)
Lemma main_encode_failure_is_fatal :
  main stdout_always (map bytes_of ["morse"; "encode"; "a1b"; "c"]%string)
  = Ok (6, bytes_of ".- ").
Proof. vm_compute. reflexivity. Qed.

(** Every run of the [decode] command on a [stdout] that takes every
    write ends with status 0. *)
Lemma main_decode_status (prog : list Z) (operands : list (list Z)) :
  main stdout_always (prog :: bytes_of "decode" :: operands)
  = Ok (0, map (fun arg => morse_decode arg mod 256) operands ++ [10]).
Proof.
  unfold main. rewrite morse_tests_pass. cbn [bind].
  change (0 <? 0) with false. cbv iota.
  change (bytes_eqb (bytes_of "decode") (bytes_of "encode")) with false.
  change (bytes_eqb (bytes_of "decode") (bytes_of "decode")) with true.
  cbv iota zeta. change (1 <? 0) with false. change (negb (1 =? 0)) with true.
  cbv iota. rewrite decode_operands_status. reflexivity.
Qed.

(** * Further properties *)

(** ** morse_decode: results and failures *)

Lemma bytes_eqb_eq (a : list Z) : forall b, bytes_eqb a b = true -> a = b.
Proof.
  induction a as [|x a IH]; intros [|y b] H; try discriminate; [reflexivity|].
  cbn [bytes_eqb] in H. apply andb_prop in H. destruct H as [Hx Hab].
  apply Z.eqb_eq in Hx. subst y. f_equal. apply IH, Hab.
Qed.

Lemma table_entry_not_error (x : Z) : sentinel x \/ letter x -> x <> -1.
Proof. unfold sentinel, letter, STAR, QUERY. lia. Qed.

(** [morse_decode] returns -1, a sentinel or a letter of ['A'..'Z'],
    and nothing else, on every input. *)
Theorem decode_result_range (inp : list Z) :
  morse_decode inp = -1 \/ sentinel (morse_decode inp) \/ letter (morse_decode inp).
Proof.
  unfold morse_decode, morse_decode_run.
  destruct (decode_loop_outcome inp 1 ltac:(lia)) as [H|[H|[m [Hm H]]]];
    rewrite H; cbn [fst].
  - left. reflexivity.
  - right; left. right. reflexivity.
  - right. apply table_entry_kind. lia.
Qed.

Lemma decode_loop_failure_cause (inp : list Z) :
  forall n, 1 <= n -> fst (decode_loop n inp) = -1 ->
    exists pre b post,
      inp = pre ++ b :: post /\ Forall symbol pre /\
      n * 2 ^ Z.of_nat (length pre) < MORSE_CODEC_LENGTH /\
      b <> MORSE_DOT /\ b <> MORSE_DASH /\ b <> 0.
Proof.
  induction inp as [|ch rest IH]; intros n Hn;
    (destruct (Z.lt_ge_cases n MORSE_CODEC_LENGTH) as [Hlt|Hge];
     [|rewrite (decode_loop_end _ _ Hge); discriminate]);
    cbn [decode_loop]; rewrite (proj2 (Z.ltb_lt _ _) Hlt).
  - rewrite (decode_at_nul_in_table n Hlt). cbn [fst]. intros H.
    exfalso. apply (table_entry_not_error (codec_at n)); [|exact H].
    apply table_entry_kind. lia.
  - destruct (ch =? MORSE_DOT) eqn:Edot;
      [|destruct (ch =? MORSE_DASH) eqn:Edash; [|destruct (ch =? 0) eqn:Enul]].
    + rewrite shiftl_1. intros H.
      destruct (IH (2 * n) ltac:(lia) H) as [pre [b [post [E [Hs [Hb Hbad]]]]]].
      apply Z.eqb_eq in Edot. subst ch rest.
      exists (MORSE_DOT :: pre), b, post. split; [reflexivity|].
      split; [constructor; [left; reflexivity | exact Hs]|].
      split; [|exact Hbad].
      cbn [length]. rewrite Nat2Z.inj_succ, Z.pow_succ_r by lia.
      assert (0 <= 2 ^ Z.of_nat (length pre)) by (apply Z.pow_nonneg; lia).
      nia.
    + rewrite shiftl_1. intros H.
      destruct (IH (2 * n + 1) ltac:(lia) H) as [pre [b [post [E [Hs [Hb Hbad]]]]]].
      apply Z.eqb_eq in Edash. subst ch rest.
      exists (MORSE_DASH :: pre), b, post. split; [reflexivity|].
      split; [constructor; [right; reflexivity | exact Hs]|].
      split; [|exact Hbad].
      cbn [length]. rewrite Nat2Z.inj_succ, Z.pow_succ_r by lia.
      assert (0 <= 2 ^ Z.of_nat (length pre)) by (apply Z.pow_nonneg; lia).
      nia.
    + rewrite (decode_at_nul_in_table n Hlt). cbn [fst]. intros H.
      exfalso. apply (table_entry_not_error (codec_at n)); [|exact H].
      apply table_entry_kind. lia.
    + intros _. exists [], ch, rest. split; [reflexivity|].
      split; [constructor|].
      split; [change (2 ^ Z.of_nat (length (@nil Z))) with 1; lia|].
      apply Z.eqb_neq in Edot, Edash, Enul. auto.
Qed.

(** [morse_decode] returns -1 only for an input in which at most four
    symbols are followed by a byte that is neither ['.'], ['-'] nor the
    NUL: a failure always has such a byte as its cause. *)
Theorem decode_failure_cause (inp : list Z) :
  morse_decode inp = -1 ->
  exists pre b post,
    inp = pre ++ b :: post /\ Forall symbol pre /\ (length pre <= 4)%nat /\
    b <> MORSE_DOT /\ b <> MORSE_DASH /\ b <> 0.
Proof.
  intros H.
  destruct (decode_loop_failure_cause inp 1 ltac:(lia) H)
    as [pre [b [post [E [Hs [Hb Hbad]]]]]].
  exists pre, b, post. split; [exact E|]. split; [exact Hs|]. split; [|exact Hbad].
  rewrite MORSE_CODEC_LENGTH_32 in Hb.
  destruct (Nat.le_gt_cases (length pre) 4) as [Hle|Hgt]; [exact Hle|].
  assert (2 ^ 5 <= 2 ^ Z.of_nat (length pre)) by (apply Z.pow_le_mono_r; lia).
  lia.
Qed.

Lemma decode_failure_cause_dot_dash_x :
  morse_decode (bytes_of ".-x.") = -1 /\
  exists pre b post,
    bytes_of ".-x." = pre ++ b :: post /\ Forall symbol pre /\
    (length pre <= 4)%nat /\ b <> MORSE_DOT /\ b <> MORSE_DASH /\ b <> 0.
Proof.
  split; [reflexivity|].
  apply (decode_failure_cause (bytes_of ".-x.")). reflexivity.
Defined.

(** Any five or more symbols decode to ['?'], with no table read,
    whatever the symbols are and whatever follows them: a code word of
    five symbols (the Morse code of a digit, say) is never recognised,
    and the sixth byte on is never looked at. *)
Theorem decode_five_or_more_symbols (pre rest : list Z) :
  Forall symbol pre -> (5 <= length pre)%nat ->
  morse_decode_run (pre ++ rest) = (QUERY, []).
Proof.
  intros Hs Hl. unfold morse_decode_run.
  apply decode_loop_overflow; [exact Hs | lia |].
  rewrite MORSE_CODEC_LENGTH_32.
  assert (2 ^ 5 <= 2 ^ Z.of_nat (length pre)) by (apply Z.pow_le_mono_r; lia).
  lia.
Qed.

Lemma decode_five_or_more_symbols_digit :
  Forall symbol (bytes_of "-----") /\ (5 <= length (bytes_of "-----"))%nat /\
  morse_decode_run (bytes_of "-----" ++ bytes_of "x") = (QUERY, []).
Proof.
  assert (Hs : Forall symbol (bytes_of "-----"))
    by (repeat constructor; right; reflexivity).
  assert (Hl : (5 <= length (bytes_of "-----"))%nat) by (cbn; lia).
  split; [exact Hs|]. split; [exact Hl|].
  exact (decode_five_or_more_symbols (bytes_of "-----") (bytes_of "x") Hs Hl).
Defined.

Lemma decode_loop_stops_at_nul (w rest : list Z) :
  forall n, decode_loop n (w ++ 0 :: rest) = decode_loop n w.
Proof.
  induction w as [|ch w IH]; intros n; cbn [app decode_loop].
  - reflexivity.
  - rewrite !IH. reflexivity.
Qed.

(** Nothing after the first NUL has any effect on [morse_decode]:
    the input cut at a NUL decodes as the whole input does. *)
Theorem decode_stops_at_nul (w rest : list Z) :
  morse_decode_run (w ++ 0 :: rest) = morse_decode_run w /\
  morse_decode (w ++ 0 :: rest) = morse_decode w.
Proof.
  unfold morse_decode, morse_decode_run.
  rewrite decode_loop_stops_at_nul. split; reflexivity.
Qed.

Lemma in_words (k : nat) :
  forall w, Forall symbol w -> (length w <= k)%nat -> In w (words k).
Proof.
  induction k as [|k IH]; intros w Hw Hl.
  - destruct w; [left; reflexivity | cbn in Hl; lia].
  - destruct w as [|s w]; [left; reflexivity|].
    right. apply in_flat_map. exists w.
    inversion Hw as [|? ? Hs Hw']; subst.
    split; [apply IH; [exact Hw' | cbn in Hl; lia]|].
    destruct Hs as [-> | ->]; [left | right; left]; reflexivity.
Qed.

(** The round trip in the other direction: when a word of symbols
    decodes to a letter, [morse_encode] of that letter gives the word
    back, followed by NULs; such a word has one to four symbols. *)
Theorem decode_then_encode (w out : list Z) :
  Forall symbol w -> letter (morse_decode w) -> length out = 6%nat ->
  (1 <= length w <= 4)%nat /\
  morse_encode (morse_decode w) out = Ok (0, w ++ repeat 0 (6 - length w)).
Proof.
  intros Hs Hl Hout.
  assert (Hlen : (length w <= 4)%nat).
  { destruct (Nat.le_gt_cases (length w) 4) as [Hle|Hgt]; [exact Hle|].
    exfalso. unfold morse_decode, morse_decode_run in Hl.
    rewrite <- (app_nil_r w) in Hl.
    rewrite (decode_loop_overflow w [] Hs 1) in Hl.
    - cbn in Hl. unfold letter, QUERY in Hl. lia.
    - lia.
    - rewrite MORSE_CODEC_LENGTH_32.
      assert (2 ^ 5 <= 2 ^ Z.of_nat (length w)) by (apply Z.pow_le_mono_r; lia).
      lia. }
  assert (H : decode_encode_ok w = true).
  { assert (Hall : forallb decode_encode_ok (words 4) = true)
      by (vm_compute; reflexivity).
    rewrite forallb_forall in Hall. apply Hall, in_words; assumption. }
  unfold decode_encode_ok in H.
  assert (Hb : is_letter (morse_decode w) = true).
  { unfold is_letter, letter in *. apply andb_true_intro. split; lia. }
  rewrite Hb in H. cbn [negb orb] in H.
  rewrite (morse_encode_at _ out Hout).
  rewrite (morse_encode_at _ zeroed eq_refl) in H.
  destruct (encode_at _ zeroed) as [[e buf]| |]; try discriminate.
  apply andb_prop in H. destruct H as [He Hbuf].
  apply Z.eqb_eq in He. apply bytes_eqb_eq in Hbuf. subst e buf.
  split; [|reflexivity]. split; [|exact Hlen].
  destruct w; [|cbn; lia]. exfalso.
  change (morse_decode []) with 42 in Hl. unfold letter in Hl. lia.
Qed.

Lemma decode_then_encode_Q :
  Forall symbol (bytes_of "--.-") /\ letter (morse_decode (bytes_of "--.-")) /\
  morse_encode (morse_decode (bytes_of "--.-")) [1; 2; 3; 4; 5; 6]
  = Ok (0, bytes_of "--.-" ++ repeat 0 (6 - length (bytes_of "--.-"))).
Proof.
  assert (Hs : Forall symbol (bytes_of "--.-"))
    by (repeat constructor; (left; reflexivity) || (right; reflexivity)).
  assert (Hl : letter (morse_decode (bytes_of "--.-")))
    by (change (morse_decode (bytes_of "--.-")) with 81; unfold letter; lia).
  split; [exact Hs|]. split; [exact Hl|].
  exact (proj2 (decode_then_encode (bytes_of "--.-") [1; 2; 3; 4; 5; 6]
                  Hs Hl eq_refl)).
Defined.

(** ** morse_reverse_char_array *)


Lemma size_t_small (z : Z) : 0 <= z <= SIZE_MAX -> size_t z = z.
Proof. intros H. unfold size_t. apply Z.mod_small. lia. Qed.

Lemma load_middle (pre : list Z) (x : Z) (post : list Z) :
  load (Z.of_nat (length pre)) (pre ++ x :: post) = Ok x.
Proof.
  unfold load, in_range. rewrite length_app. cbn [length].
  rewrite (proj2 (Z.leb_le _ _)), (proj2 (Z.ltb_lt _ _)) by lia.
  cbn [andb]. rewrite Nat2Z.id, nth_middle. reflexivity.
Qed.

Lemma update_middle (pre : list Z) (x v : Z) (post : list Z) :
  update (length pre) v (pre ++ x :: post) = pre ++ v :: post.
Proof.
  induction pre as [|p pre IH]; cbn [length app update]; [reflexivity|].
  rewrite IH. reflexivity.
Qed.

Lemma store_middle (pre : list Z) (x v : Z) (post : list Z) :
  store (Z.of_nat (length pre)) v (pre ++ x :: post) = Ok (pre ++ v :: post).
Proof.
  unfold store, in_range. rewrite length_app. cbn [length].
  rewrite (proj2 (Z.leb_le _ _)), (proj2 (Z.ltb_lt _ _)) by lia.
  cbn [andb]. rewrite Nat2Z.id, update_middle. reflexivity.
Qed.

(** The loop swaps the [k] elements after [pre] with the [k] elements
    before [post], mirrored, when [pre] and [post] are equally long. *)
Lemma reverse_loop_swaps (mid tail : list Z) (last : Z) (k : nat) :
  forall pre a rb post,
    length a = k -> length rb = k -> length pre = length post ->
    last = Z.of_nat (length pre + k + length mid + k + length post) - 1 ->
    last <= SIZE_MAX ->
    reverse_loop k (Z.of_nat (length pre)) last
      (pre ++ a ++ mid ++ rev rb ++ post ++ tail)
    = Ok (pre ++ rb ++ mid ++ rev a ++ post ++ tail).
Proof.
  induction k as [|k IH]; intros pre a rb post Ha Hrb Hpp Hlast Hmax.
  - destruct a; [|discriminate]. destruct rb; [|discriminate]. reflexivity.
  - destruct a as [|x a]; [discriminate|]. destruct rb as [|y rb]; [discriminate|].
    cbn [length] in Ha, Hrb. injection Ha as Ha. injection Hrb as Hrb.
    cbn [reverse_loop rev app].
    rewrite load_middle. cbn [bind].
    assert (Hidx : size_t (last - Z.of_nat (length pre))
                   = Z.of_nat (length (pre ++ x :: a ++ mid ++ rev rb))).
    { rewrite size_t_small by lia.
      rewrite !length_app. cbn [length]. rewrite !length_app, length_rev. lia. }
    rewrite Hidx.
    replace (pre ++ x :: a ++ mid ++ (rev rb ++ [y]) ++ post ++ tail)
      with ((pre ++ x :: a ++ mid ++ rev rb) ++ y :: post ++ tail)
      by (repeat (rewrite <- ?app_assoc; cbn [app]); reflexivity).
    rewrite load_middle. cbn [bind].
    replace ((pre ++ x :: a ++ mid ++ rev rb) ++ y :: post ++ tail)
      with (pre ++ x :: (a ++ mid ++ rev rb ++ y :: post ++ tail))
      by (repeat (rewrite <- ?app_assoc; cbn [app]); reflexivity).
    rewrite store_middle. cbn [bind].
    replace (pre ++ y :: a ++ mid ++ rev rb ++ y :: post ++ tail)
      with ((pre ++ y :: a ++ mid ++ rev rb) ++ y :: post ++ tail)
      by (repeat (rewrite <- ?app_assoc; cbn [app]); reflexivity).
    replace (Z.of_nat (length (pre ++ x :: a ++ mid ++ rev rb)))
      with (Z.of_nat (length (pre ++ y :: a ++ mid ++ rev rb)))
      by (rewrite !length_app; reflexivity).
    rewrite store_middle. cbn [bind].
    replace (Z.of_nat (length pre) + 1) with (Z.of_nat (length (pre ++ [y])))
      by (rewrite length_app; cbn [length]; lia).
    replace ((pre ++ y :: a ++ mid ++ rev rb) ++ x :: post ++ tail)
      with ((pre ++ [y]) ++ a ++ mid ++ rev rb ++ (x :: post) ++ tail)
      by (repeat (rewrite <- ?app_assoc; cbn [app]); reflexivity).
    rewrite (IH (pre ++ [y]) a rb (x :: post)); try assumption.
    + f_equal. repeat (rewrite <- ?app_assoc; cbn [app]). reflexivity.
    + rewrite length_app. cbn [length]. lia.
    + rewrite Hlast, length_app. cbn [length]. lia.
Qed.

Lemma rev_short (l : list Z) : (length l <= 1)%nat -> rev l = l.
Proof. destruct l as [|x [|y l]]; cbn; intros; [reflexivity | reflexivity | lia]. Qed.

(** [morse_reverse_char_array(r, length)] reverses the first [length]
    bytes of [r] in place and leaves the bytes after them as they
    were, for every [length] up to the size of the array, 0 included
    (where [length - 1] wraps to [SIZE_MAX] and no byte is touched). *)
Theorem reverse_char_array_reverses (r : list Z) (len : Z) :
  0 <= len <= Z.of_nat (length r) -> Z.of_nat (length r) <= SIZE_MAX ->
  morse_reverse_char_array r len
  = Ok (rev (firstn (Z.to_nat len) r) ++ skipn (Z.to_nat len) r).
Proof.
  intros Hlen Hmax. unfold morse_reverse_char_array.
  set (n := Z.to_nat len).
  assert (Hk : Z.to_nat (len / 2) = (n / 2)%nat).
  { unfold n. rewrite Z2Nat.inj_div by lia. reflexivity. }
  rewrite Hk. set (k := (n / 2)%nat).
  assert (Hnk : (2 * k <= n)%nat).
  { unfold k. pose proof (Nat.div_mod_eq n 2). lia. }
  assert (Hodd : (n - 2 * k <= 1)%nat).
  { unfold k. pose proof (Nat.div_mod_eq n 2).
    pose proof (Nat.mod_upper_bound n 2). lia. }
  set (p := firstn n r). set (tail := skipn n r).
  assert (Hp : length p = n) by (unfold p; rewrite length_firstn; lia).
  set (a := firstn k p).
  set (mid := firstn (n - 2 * k) (skipn k p)).
  set (b := skipn (n - 2 * k) (skipn k p)).
  assert (Ha : length a = k) by (unfold a; rewrite length_firstn; lia).
  assert (Hmid : length mid = (n - 2 * k)%nat)
    by (unfold mid; rewrite length_firstn, length_skipn; lia).
  assert (Hb : length b = k)
    by (unfold b; rewrite !length_skipn; lia).
  assert (Hpe : p = a ++ mid ++ b).
  { unfold a, mid, b. rewrite firstn_skipn, firstn_skipn. reflexivity. }
  assert (Hr : r = [] ++ a ++ mid ++ rev (rev b) ++ [] ++ tail).
  { cbn [app]. rewrite rev_involutive, !app_assoc, <- (app_assoc a), <- Hpe.
    unfold p, tail. symmetry. apply firstn_skipn. }
  fold p. rewrite Hpe, !rev_app_distr, (rev_short mid) by lia.
  destruct k as [|k'] eqn:Ek.
  - destruct a; [|discriminate]. destruct b; [|discriminate].
    cbn [reverse_loop rev app]. rewrite app_nil_r. f_equal.
    rewrite Hr at 1. cbn [app rev]. reflexivity.
  - rewrite Hr at 1. change 0 with (Z.of_nat (length (@nil Z))).
    rewrite (reverse_loop_swaps mid tail _ (S k') [] a (rev b) []);
      try assumption; try reflexivity.
    + cbn [app]. rewrite <- !app_assoc. reflexivity.
    + rewrite length_rev. exact Hb.
    + rewrite size_t_small by lia. cbn [length]. rewrite Hmid. lia.
    + unfold size_t. pose proof (Z.mod_pos_bound (len - 1) (SIZE_MAX + 1)).
      unfold SIZE_MAX in *. lia.
Qed.

Lemma reverse_char_array_reverses_4_of_6 :
  0 <= 4 <= Z.of_nat (length [1; 2; 3; 4; 5; 6]) /\
  Z.of_nat (length [1; 2; 3; 4; 5; 6]) <= SIZE_MAX /\
  morse_reverse_char_array [1; 2; 3; 4; 5; 6] 4 = Ok [4; 3; 2; 1; 5; 6].
Proof.
  assert (H1 : 0 <= 4 <= Z.of_nat (length [1; 2; 3; 4; 5; 6])) by (cbn; lia).
  assert (H2 : Z.of_nat (length [1; 2; 3; 4; 5; 6]) <= SIZE_MAX)
    by (unfold SIZE_MAX; cbn; lia).
  split; [exact H1|]. split; [exact H2|].
  exact (reverse_char_array_reverses [1; 2; 3; 4; 5; 6] 4 H1 H2).
Defined.

(** A [length] of two or more that exceeds the array makes the very
    first swap access a byte outside of it. *)
Theorem reverse_char_array_out_of_bounds (r : list Z) (len : Z) :
  Z.of_nat (length r) < len <= SIZE_MAX -> 2 <= len ->
  morse_reverse_char_array r len = OutOfBounds.
Proof.
  intros Hlen H2. unfold morse_reverse_char_array.
  assert (Hk : exists k, Z.to_nat (len / 2) = S k).
  { exists (Nat.pred (Z.to_nat (len / 2))).
    assert (1 <= len / 2) by (apply Z.div_le_lower_bound; lia). lia. }
  destruct Hk as [k ->]. cbn [reverse_loop].
  unfold load at 1. destruct (in_range 0 r); [|reflexivity]. cbn [bind].
  rewrite Z.sub_0_r, !size_t_small by (unfold size_t, SIZE_MAX in *; try rewrite Z.mod_small; lia).
  unfold load, in_range.
  rewrite (proj2 (Z.ltb_ge _ _)) by lia. rewrite andb_false_r. reflexivity.
Qed.

Lemma reverse_char_array_out_of_bounds_5_of_3 :
  Z.of_nat (length [1; 2; 3]) < 5 <= SIZE_MAX /\ 2 <= 5 /\
  morse_reverse_char_array [1; 2; 3] 5 = OutOfBounds.
Proof.
  assert (H1 : Z.of_nat (length [1; 2; 3]) < 5 <= SIZE_MAX)
    by (unfold SIZE_MAX; cbn; lia).
  assert (H2 : 2 <= 5) by lia.
  split; [exact H1|]. split; [exact H2|].
  exact (reverse_char_array_out_of_bounds [1; 2; 3] 5 H1 H2).
Defined.

(** ** morse_encode: the code words *)

Lemma letter_code (c : Z) :
  letter c ->
  Forall symbol (code_word c) /\ (1 <= length (code_word c) <= 4)%nat /\
  morse_encode c zeroed
  = Ok (0, code_word c ++ repeat 0 (6 - length (code_word c))) /\
  Z.of_nat (length (code_word c)) = Z.log2 (find_pos c) /\
  morse_decode_run (code_word c) = (c, [find_pos c]).
Proof.
  intros Hc.
  assert (H : letter_code_ok c = true).
  { apply (forallb_indices letter_code_ok 65 26);
      [vm_compute; reflexivity | unfold letter in Hc; lia]. }
  unfold letter_code_ok in H.
  destruct (morse_encode c zeroed) as [[e buf]| |]; try discriminate.
  cbv zeta in H.
  apply andb_prop in H. destruct H as [H Hreads].
  apply andb_prop in H. destruct H as [H Hvalue].
  apply andb_prop in H. destruct H as [H Hlog].
  apply andb_prop in H. destruct H as [H Hbuf].
  apply andb_prop in H. destruct H as [H Hle].
  apply andb_prop in H. destruct H as [H Hge].
  apply andb_prop in H. destruct H as [He Hsym].
  apply Z.eqb_eq in He, Hlog, Hvalue. apply bytes_eqb_eq in Hbuf, Hreads.
  apply Nat.leb_le in Hle, Hge. apply all_symbols in Hsym. subst e buf.
  split; [assumption|]. split; [lia|]. split; [reflexivity|].
  split; [assumption|].
  destruct (morse_decode_run (code_word c)) as [v rd]. cbn [fst snd] in *.
  congruence.
Qed.

Lemma c_string_code (w t : list Z) :
  Forall symbol w -> c_string (w ++ 0 :: t) = Ok w.
Proof.
  induction 1 as [|s w Hs Hw IH]; cbn [app c_string]; [reflexivity|].
  assert (E : (s =? 0) = false) by (destruct Hs; subst s; reflexivity).
  rewrite E, IH. reflexivity.
Qed.

Lemma c_string_buffer (w : list Z) :
  Forall symbol w -> (length w <= 4)%nat ->
  c_string (w ++ repeat 0 (6 - length w)) = Ok w.
Proof.
  intros Hs Hl.
  replace (6 - length w)%nat with (S (5 - length w)) by lia.
  cbn [repeat]. apply c_string_code, Hs.
Qed.

Lemma encode_non_letter (c : Z) :
  ~ letter c -> morse_encode c zeroed = Ok (-1, zeroed).
Proof.
  intros Hc. rewrite (morse_encode_at c zeroed eq_refl). unfold encode_at.
  destruct (find_pos_spec c) as [H|[Hrange Hat]].
  - rewrite H, Z.eqb_refl. reflexivity.
  - destruct (table_entry_kind _ Hrange) as [Hs|Hl];
      [|rewrite Hat in Hl; contradiction].
    destruct (find_pos c =? SIZE_MAX); [reflexivity|].
    destruct Hs as [Hs|Hs]; rewrite Hs; reflexivity.
Qed.


(** The code word of a letter spells the table index at which the
    scan finds it: the word has as many symbols as the index has bits
    after its leading one (one to four), and decoding the word reads
    the table at exactly that index, which is at least 2. *)
Theorem encode_spells_table_index (c : Z) (out : list Z) :
  letter c -> length out = 6%nat ->
  exists w,
    morse_encode c out = Ok (0, w ++ repeat 0 (6 - length w)) /\
    Forall symbol w /\ (1 <= length w <= 4)%nat /\
    2 <= find_pos c < MORSE_CODEC_LENGTH /\
    Z.of_nat (length w) = Z.log2 (find_pos c) /\
    morse_decode_run w = (c, [find_pos c]).
Proof.
  intros Hc Hout.
  destruct (letter_code c Hc) as [Hs [Hl [He [Hlog Hd]]]].
  exists (code_word c).
  rewrite (morse_encode_at c out Hout), <- (morse_encode_at c zeroed eq_refl).
  split; [exact He|]. split; [exact Hs|]. split; [exact Hl|].
  split; [|split; assumption].
  destruct (find_pos_spec c) as [H|[Hr _]].
  - rewrite H in Hlog. change (Z.log2 SIZE_MAX) with 63 in Hlog. lia.
  - split; [|lia].
    destruct (Z.lt_ge_cases (find_pos c) 2) as [Hlt|Hge]; [|exact Hge].
    assert (Z.log2 (find_pos c) <= 0).
    { assert (E : find_pos c = 0 \/ find_pos c = 1) by lia.
      destruct E as [-> | ->]; cbn; lia. }
    lia.
Qed.

Lemma encode_spells_table_index_Q :
  letter 81 /\ length [9; 9; 9; 9; 9; 9] = 6%nat /\
  exists w,
    morse_encode 81 [9; 9; 9; 9; 9; 9] = Ok (0, w ++ repeat 0 (6 - length w)) /\
    Forall symbol w /\ (1 <= length w <= 4)%nat /\
    2 <= find_pos 81 < MORSE_CODEC_LENGTH /\
    Z.of_nat (length w) = Z.log2 (find_pos 81) /\
    morse_decode_run w = (81, [find_pos 81]).
Proof.
  assert (Hc : letter 81) by (unfold letter; lia).
  split; [exact Hc|]. split; [reflexivity|].
  exact (encode_spells_table_index 81 [9; 9; 9; 9; 9; 9] Hc eq_refl).
Defined.

Lemma same_code_same_letter (c1 c2 : Z) (w : list Z) :
  letter c1 -> letter c2 ->
  morse_encode c1 zeroed = Ok (0, w) -> morse_encode c2 zeroed = Ok (0, w) ->
  c1 = c2.
Proof.
  intros H1 H2.
  destruct (letter_code c1 H1) as [Hs1 [Hl1 [He1 [_ Hd1]]]].
  destruct (letter_code c2 H2) as [Hs2 [Hl2 [He2 [_ Hd2]]]].
  rewrite He1, He2. intros E1 E2.
  assert (Hc : c_string w = Ok (code_word c1) /\ c_string w = Ok (code_word c2)).
  { split.
    - injection E1 as <-. apply c_string_buffer; [assumption | lia].
    - injection E2 as <-. apply c_string_buffer; [assumption | lia]. }
  destruct Hc as [Hc1 Hc2]. rewrite Hc1 in Hc2. injection Hc2 as Hw.
  rewrite Hw in Hd1. rewrite Hd1 in Hd2. congruence.
Qed.

(** Two different letters never get the same code word. *)
Theorem code_words_distinct (c1 c2 : Z) (out1 out2 w1 w2 : list Z) :
  letter c1 -> letter c2 -> c1 <> c2 ->
  length out1 = 6%nat -> length out2 = 6%nat ->
  morse_encode c1 out1 = Ok (0, w1) -> morse_encode c2 out2 = Ok (0, w2) ->
  w1 <> w2.
Proof.
  intros H1 H2 Hneq Ho1 Ho2.
  rewrite (morse_encode_at c1 out1 Ho1), (morse_encode_at c2 out2 Ho2).
  rewrite <- (morse_encode_at c1 zeroed eq_refl),
          <- (morse_encode_at c2 zeroed eq_refl).
  intros E1 E2 Hw. subst w2.
  apply Hneq, (same_code_same_letter c1 c2 w1 H1 H2 E1 E2).
Qed.

Lemma code_words_distinct_A_N :
  letter 65 /\ letter 78 /\ 65 <> 78 /\
  morse_encode 65 zeroed = Ok (0, bytes_of ".-" ++ [0; 0; 0; 0]) /\
  morse_encode 78 zeroed = Ok (0, bytes_of "-." ++ [0; 0; 0; 0]) /\
  bytes_of ".-" ++ [0; 0; 0; 0] <> bytes_of "-." ++ [0; 0; 0; 0].
Proof.
  assert (H1 : letter 65) by (unfold letter; lia).
  assert (H2 : letter 78) by (unfold letter; lia).
  assert (Hn : 65 <> 78) by lia.
  split; [exact H1|]. split; [exact H2|]. split; [exact Hn|].
  split; [reflexivity|]. split; [reflexivity|].
  exact (code_words_distinct 65 78 zeroed zeroed _ _ H1 H2 Hn
           eq_refl eq_refl eq_refl eq_refl).
Defined.

(** [morse_encode] stores to all of [out[0..5]] before it looks at its
    character: a buffer of fewer than six bytes is overrun for every
    character, also one that is rejected; and what a six byte buffer
    held before the call has no effect on the result. *)
Theorem encode_buffer_contract (c : Z) (out : list Z) :
  ((length out < 6)%nat -> morse_encode c out = OutOfBounds) /\
  (length out = 6%nat -> morse_encode c out = morse_encode c zeroed).
Proof.
  split.
  - intros H. unfold morse_encode.
    destruct out as [|a [|b [|d [|e [|f [|g out]]]]]];
      try reflexivity. cbn [length] in H. lia.
  - intros H. rewrite (morse_encode_at c out H).
    symmetry. apply (morse_encode_at c zeroed eq_refl).
Qed.

Lemma encode_buffer_contract_short_and_dirty :
  ((length [0; 0; 0; 0; 0] < 6)%nat /\
   morse_encode 49 [0; 0; 0; 0; 0] = OutOfBounds) /\
  (length [1; 2; 3; 4; 5; 6] = 6%nat /\
   morse_encode 69 [1; 2; 3; 4; 5; 6] = morse_encode 69 zeroed).
Proof.
  assert (H5 : (length [0; 0; 0; 0; 0] < 6)%nat) by (cbn; lia).
  split; (split; [first [exact H5 | reflexivity]|]).
  - exact (proj1 (encode_buffer_contract 49 [0; 0; 0; 0; 0]) H5).
  - exact (proj2 (encode_buffer_contract 69 [1; 2; 3; 4; 5; 6]) eq_refl).
Defined.

(** ** main *)


Lemma toupper_byte (ch : Z) :
  0 < ch < 256 -> toupper ch mod 256 = toupper ch.
Proof.
  intros H. unfold toupper.
  destruct ((97 <=? ch) && (ch <=? 122)) eqn:E.
  - apply andb_prop in E. destruct E as [E1 E2].
    apply Z.leb_le in E1, E2. apply Z.mod_small. lia.
  - apply Z.mod_small. lia.
Qed.

Lemma toupper_alphabetic (ch : Z) :
  alphabetic ch ->
  ch <> 0 /\ toupper ch mod 256 = toupper ch /\ letter (toupper ch).
Proof.
  intros H.
  assert (Hb : 0 < ch < 256) by (unfold alphabetic in H; lia).
  split; [lia|]. split; [apply toupper_byte, Hb|].
  unfold alphabetic, letter, toupper in *.
  destruct ((97 <=? ch) && (ch <=? 122)) eqn:E.
  - apply andb_prop in E. destruct E as [E1 E2].
    apply Z.leb_le in E1, E2. lia.
  - apply andb_false_iff in E.
    destruct E as [E|E]; [apply Z.leb_gt in E | apply Z.leb_gt in E]; lia.
Qed.

Lemma toupper_not_alphabetic (ch : Z) :
  0 < ch < 256 -> ~ alphabetic ch -> ch <> 0 /\ ~ letter (toupper ch mod 256).
Proof.
  intros Hb Hn. split; [lia|]. rewrite (toupper_byte ch Hb).
  unfold alphabetic, letter, toupper in *.
  destruct ((97 <=? ch) && (ch <=? 122)) eqn:E.
  - apply andb_prop in E. destruct E as [E1 E2].
    apply Z.leb_le in E1, E2. lia.
  - lia.
Qed.

Section AnyStdout.

Variable accepts : list Z -> list Z -> bool.

Lemma decode_operands_outcome (operands : list (list Z)) :
  forall written,
    exists st k,
      decode_operands accepts operands written
      = (st, written ++ firstn k (decoded_operands operands ++ [10])) /\
      ((st = 0 /\ k = S (length operands)) \/
       (st = 4 /\ (k < length operands)%nat) \/
       (st = 5 /\ k = length operands)).
Proof.
  unfold decoded_operands.
  induction operands as [|arg operands IH]; intros written;
    cbn [decode_operands map app length]; unfold fprintf_stdout.
  - destruct (accepts written [10]).
    + exists 0, 1%nat. split; [reflexivity | left; split; reflexivity].
    + exists 5, 0%nat. cbn [firstn]. rewrite app_nil_r.
      split; [reflexivity | right; right; split; reflexivity].
  - destruct (accepts written [morse_decode arg mod 256]).
    + destruct (IH (written ++ [morse_decode arg mod 256])) as [st [k [E H]]].
      exists st, (S k). rewrite E. cbn [firstn]. rewrite <- app_assoc.
      split; [reflexivity|]. lia.
    + exists 4, 0%nat. cbn [firstn]. rewrite app_nil_r.
      split; [reflexivity | right; left; split; [reflexivity | lia]].
Qed.



Lemma main_unfold (argv : list (list Z)) :
  main accepts argv =
  match argv with
  | _ :: cmd :: operands =>
      if bytes_eqb cmd (bytes_of "decode") then Ok (decode_operands accepts operands [])
      else if bytes_eqb cmd (bytes_of "encode") then encode_operands accepts operands []
      else Ok (3, [])
  | _ => Ok (2, [])
  end.
Proof.
  unfold main. rewrite morse_tests_pass. cbn [bind].
  change (0 <? 0) with false. cbv iota.
  destruct argv as [|prog [|cmd operands]]; try reflexivity.
  cbv zeta.
  destruct (bytes_eqb cmd (bytes_of "decode"));
    destruct (bytes_eqb cmd (bytes_of "encode")); reflexivity.
Qed.



(** The [decode] command writes one byte per operand, in order, and a
    final newline, until a write fails: status 0 when all of it is
    written, 4 when the byte of some operand could not be written, 5
    when only the newline could not.  What [stdout] holds at the end is
    the part written before the failure. *)
Theorem main_decode_outcome (prog : list Z) (operands : list (list Z)) :
  exists st k,
    main accepts (prog :: bytes_of "decode" :: operands)
    = Ok (st, firstn k (decoded_operands operands ++ [10])) /\
    ((st = 0 /\ k = S (length operands)) \/
     (st = 4 /\ (k < length operands)%nat) \/
     (st = 5 /\ k = length operands)).
Proof.
  rewrite main_unfold.
  change (bytes_eqb (bytes_of "decode") (bytes_of "decode")) with true.
  cbv iota.
  destruct (decode_operands_outcome operands []) as [st [k [E H]]].
  exists st, k. rewrite E. split; [reflexivity | exact H].
Qed.

End AnyStdout.


Lemma encode_operand_alphabetic (arg : list Z) :
  Forall alphabetic arg ->
  forall written,
    encode_operand stdout_always arg written
    = Ok (None, written ++ encoded_operand arg).
Proof.
  unfold encoded_operand.
  induction 1 as [|ch arg Hch Harg IH]; intros written;
    cbn [encode_operand flat_map].
  - rewrite app_nil_r. reflexivity.
  - destruct (toupper_alphabetic ch Hch) as [Hnz [Hmod Hl]].
    apply Z.eqb_neq in Hnz. rewrite Hnz, Hmod.
    change [0; 0; 0; 0; 0; 0] with zeroed.
    destruct (letter_code _ Hl) as [Hs [Hlen [He _]]].
    rewrite He. cbn [bind]. change (0 <? 0) with false. cbv iota.
    rewrite c_string_buffer by (assumption || lia). cbn [bind].
    unfold fprintf_stdout, stdout_always. rewrite IH, <- !app_assoc.
    reflexivity.
Qed.

Lemma encode_operand_rejects (good : list Z) (bad : Z) (rest : list Z) :
  Forall alphabetic good -> 0 < bad < 256 -> ~ alphabetic bad ->
  forall written,
    encode_operand stdout_always (good ++ bad :: rest) written
    = Ok (Some 6, written ++ encoded_operand good).
Proof.
  intros Hgood Hb Hbad. unfold encoded_operand.
  induction Hgood as [|ch good Hch Hgood IH]; intros written;
    cbn [app encode_operand flat_map].
  - destruct (toupper_not_alphabetic bad Hb Hbad) as [Hnz Hl].
    apply Z.eqb_neq in Hnz. rewrite Hnz.
    change [0; 0; 0; 0; 0; 0] with zeroed.
    rewrite (encode_non_letter _ Hl). cbn [bind].
    change (-1 <? 0) with true. cbv iota. rewrite app_nil_r. reflexivity.
  - destruct (toupper_alphabetic ch Hch) as [Hnz [Hmod Hl]].
    apply Z.eqb_neq in Hnz. rewrite Hnz, Hmod.
    change [0; 0; 0; 0; 0; 0] with zeroed.
    destruct (letter_code _ Hl) as [Hs [Hlen [He _]]].
    rewrite He. cbn [bind]. change (0 <? 0) with false. cbv iota.
    rewrite c_string_buffer by (assumption || lia). cbn [bind].
    unfold fprintf_stdout, stdout_always. rewrite IH, <- !app_assoc.
    reflexivity.
Qed.

Lemma encode_operands_alphabetic (operands : list (list Z)) :
  Forall (Forall alphabetic) operands ->
  forall written,
    encode_operands stdout_always operands written
    = Ok (0, written ++ encoded_operands operands).
Proof.
  unfold encoded_operands.
  induction 1 as [|arg operands Harg Hops IH]; intros written;
    cbn [encode_operands flat_map].
  - rewrite app_nil_r. reflexivity.
  - rewrite (encode_operand_alphabetic arg Harg). cbn [bind].
    unfold fprintf_stdout, stdout_always. rewrite IH, <- !app_assoc.
    reflexivity.
Qed.

(** On operands made of ASCII letters of either case the [encode]
    command, its writes succeeding, exits with 0 after writing, for
    each operand, the code word of each upper-cased character followed
    by a space, and then a newline. *)
Theorem main_encode_alphabetic (prog : list Z) (operands : list (list Z)) :
  Forall (Forall alphabetic) operands ->
  main stdout_always (prog :: bytes_of "encode" :: operands)
  = Ok (0, encoded_operands operands).
Proof.
  intros H. rewrite main_unfold.
  change (bytes_eqb (bytes_of "encode") (bytes_of "decode")) with false.
  change (bytes_eqb (bytes_of "encode") (bytes_of "encode")) with true.
  cbv iota. apply (encode_operands_alphabetic operands H []).
Qed.

Lemma main_encode_alphabetic_sos :
  Forall (Forall alphabetic) [bytes_of "sOs"; bytes_of "Q"] /\
  main stdout_always
    [bytes_of "morse"; bytes_of "encode"; bytes_of "sOs"; bytes_of "Q"]
  = Ok (0, encoded_operands [bytes_of "sOs"; bytes_of "Q"]).
Proof.
  assert (H : Forall (Forall alphabetic) [bytes_of "sOs"; bytes_of "Q"])
    by (repeat first [apply Forall_nil | apply Forall_cons];
        unfold alphabetic; cbn; lia).
  split; [exact H|].
  exact (main_encode_alphabetic (bytes_of "morse") _ H).
Defined.

(** At the first character that is not a letter the [encode] command
    exits with status 6; [stdout] then holds what was written for the
    operands and characters before it and nothing for that character
    or anything after it, not even the newline of its operand. *)
Theorem main_encode_stops_at_first_failure
  (prog : list Z) (before : list (list Z)) (good : list Z) (bad : Z)
  (rest : list Z) (after : list (list Z)) :
  Forall (Forall alphabetic) before -> Forall alphabetic good ->
  0 < bad < 256 -> ~ alphabetic bad ->
  main stdout_always
    (prog :: bytes_of "encode" :: before ++ (good ++ bad :: rest) :: after)
  = Ok (6, encoded_operands before ++ encoded_operand good).
Proof.
  intros Hbefore Hgood Hb Hbad. rewrite main_unfold.
  change (bytes_eqb (bytes_of "encode") (bytes_of "decode")) with false.
  change (bytes_eqb (bytes_of "encode") (bytes_of "encode")) with true.
  cbv iota.
  assert (H : forall written,
             encode_operands stdout_always
               (before ++ (good ++ bad :: rest) :: after) written
             = Ok (6, written ++ encoded_operands before ++ encoded_operand good)).
  { unfold encoded_operands.
    induction Hbefore as [|arg before Harg Hbefore IH]; intros written;
      cbn [app encode_operands flat_map].
    - rewrite (encode_operand_rejects good bad rest Hgood Hb Hbad).
      reflexivity.
    - rewrite (encode_operand_alphabetic arg Harg). cbn [bind].
      unfold fprintf_stdout, stdout_always. rewrite IH, <- !app_assoc.
      reflexivity. }
  apply (H []).
Qed.

Lemma main_encode_stops_at_digit :
  Forall (Forall alphabetic) [bytes_of "ab"] /\ Forall alphabetic (bytes_of "c") /\
  0 < 49 < 256 /\ ~ alphabetic 49 /\
  main stdout_always
    (bytes_of "morse" :: bytes_of "encode" ::
     [bytes_of "ab"] ++ (bytes_of "c" ++ 49 :: bytes_of "d") :: [bytes_of "e"])
  = Ok (6, encoded_operands [bytes_of "ab"] ++ encoded_operand (bytes_of "c")).
Proof.
  assert (H1 : Forall (Forall alphabetic) [bytes_of "ab"])
    by (repeat first [apply Forall_nil | apply Forall_cons];
        unfold alphabetic; cbn; lia).
  assert (H2 : Forall alphabetic (bytes_of "c"))
    by (repeat first [apply Forall_nil | apply Forall_cons];
        unfold alphabetic; cbn; lia).
  assert (H3 : 0 < 49 < 256) by lia.
  assert (H4 : ~ alphabetic 49) by (unfold alphabetic; lia).
  split; [exact H1|]. split; [exact H2|]. split; [exact H3|]. split; [exact H4|].
  exact (main_encode_stops_at_first_failure (bytes_of "morse") [bytes_of "ab"]
           (bytes_of "c") 49 (bytes_of "d") [bytes_of "e"] H1 H2 H3 H4).
Defined.

(** The two commands fit together: the [decode] command, given the
    code words of a list of letters as its operands, writes these
    letters and a newline and exits with 0. *)
Theorem main_decode_code_words (prog : list Z) (cs : list Z) :
  Forall letter cs ->
  main stdout_always (prog :: bytes_of "decode" :: map code_word cs)
  = Ok (0, cs ++ [10]).
Proof.
  intros H. rewrite main_decode_status. f_equal. f_equal. f_equal.
  induction H as [|c cs Hc Hcs IH]; cbn [map]; [reflexivity|].
  rewrite IH. f_equal.
  destruct (letter_code c Hc) as [_ [_ [_ [_ Hd]]]].
  unfold morse_decode. rewrite Hd. cbn [fst].
  unfold letter in Hc. apply Z.mod_small. lia.
Qed.

Lemma main_decode_code_words_sos :
  Forall letter (bytes_of "SOS") /\
  main stdout_always
    (bytes_of "morse" :: bytes_of "decode" :: map code_word (bytes_of "SOS"))
  = Ok (0, bytes_of "SOS" ++ [10]).
Proof.
  assert (H : Forall letter (bytes_of "SOS"))
    by (repeat first [apply Forall_nil | apply Forall_cons];
        unfold letter; cbn; lia).
  split; [exact H|].
  exact (main_decode_code_words (bytes_of "morse") (bytes_of "SOS") H).
Defined.

(** ** morse_usage *)

Lemma indices_succ (lo : Z) (k : nat) :
  indices lo (S k) = lo :: indices (lo + 1) k.
Proof.
  unfold indices. cbn [seq map]. rewrite Z.add_0_r. f_equal.
  rewrite <- seq_shift, map_map. apply map_ext. intros j. lia.
Qed.

Lemma usage_loop_accepted (fuel : nat) :
  forall ch written,
    65 <= ch -> ch + Z.of_nat fuel = 78 ->
    usage_loop stdout_always fuel ch written
    = Ok (0, written ++ usage_rows ch fuel ++ usage_tree).
Proof.
  induction fuel as [|fuel IH]; intros ch written Hlo Hhi.
  - cbn [usage_loop]. replace ch with 78 by lia. reflexivity.
  - cbn [usage_loop].
    rewrite (proj2 (Z.leb_le ch 77)) by lia.
    change [0; 0; 0; 0; 0; 0] with zeroed.
    destruct (letter_code ch ltac:(unfold letter; lia)) as [Hs1 [Hl1 [He1 _]]].
    destruct (letter_code (ch + 13) ltac:(unfold letter; lia)) as [Hs2 [Hl2 [He2 _]]].
    rewrite He1. cbn [bind]. change (0 <? 0) with false. cbv iota.
    rewrite He2. cbn [bind]. change (0 <? 0) with false. cbv iota.
    rewrite !c_string_buffer by (assumption || lia). cbn [bind].
    unfold fprintf_stdout at 1. unfold stdout_always at 1.
    rewrite IH by lia. unfold usage_rows.
    rewrite indices_succ. cbn [flat_map]. rewrite <- !app_assoc. reflexivity.
Qed.

(** On a stream that takes every write [morse_usage] returns 0 after
    writing the heading with the program name, one row for each of
    ['A'..'M'] showing that letter and the letter 13 places on, each
    with its code word right-aligned in five columns, and the tree. *)
Theorem usage_on_accepting_stream (arg0 written : list Z) :
  morse_usage stdout_always arg0 written
  = Ok (0, written ++ usage_fmt arg0 ++ usage_rows 65 13 ++ usage_tree).
Proof.
  unfold morse_usage, fprintf_stdout. unfold stdout_always at 1.
  rewrite usage_loop_accepted by lia. rewrite <- app_assoc. reflexivity.
Qed.

Lemma usage_loop_outcome (accepts : list Z -> list Z -> bool) (fuel : nat) :
  forall ch written,
    65 <= ch -> ch + Z.of_nat fuel = 78 ->
    exists st out,
      usage_loop accepts fuel ch written = Ok (st, out) /\
      (st = 0 \/ (st = -1 /\ exists bytes, accepts out bytes = false)).
Proof.
  induction fuel as [|fuel IH]; intros ch written Hlo Hhi.
  - cbn [usage_loop]. rewrite (proj2 (Z.leb_gt ch 77)) by lia.
    unfold fprintf_stdout. destruct (accepts written usage_tree) eqn:E.
    + eexists _, _. split; [reflexivity | left; reflexivity].
    + exists (-1), written. split; [reflexivity|]. right.
      split; [reflexivity | exists usage_tree; exact E].
  - cbn [usage_loop].
    rewrite (proj2 (Z.leb_le ch 77)) by lia.
    change [0; 0; 0; 0; 0; 0] with zeroed.
    destruct (letter_code ch ltac:(unfold letter; lia)) as [Hs1 [Hl1 [He1 _]]].
    destruct (letter_code (ch + 13) ltac:(unfold letter; lia)) as [Hs2 [Hl2 [He2 _]]].
    rewrite He1. cbn [bind]. change (0 <? 0) with false. cbv iota.
    rewrite He2. cbn [bind]. change (0 <? 0) with false. cbv iota.
    rewrite !c_string_buffer by (assumption || lia). cbn [bind].
    unfold fprintf_stdout at 1.
    destruct (accepts written _) eqn:E.
    + apply IH; lia.
    + exists (-1), written. split; [reflexivity|]. right.
      split; [reflexivity | eexists; exact E].
Qed.

(** [morse_usage] fails only when a write does: it never runs outside
    an array, it returns 0 or -1, and when it returns -1 the stream has
    refused a write in the state it is left in; no failure comes from
    [morse_encode]. *)
Theorem usage_fails_only_on_write (accepts : list Z -> list Z -> bool)
  (arg0 written : list Z) :
  exists st out,
    morse_usage accepts arg0 written = Ok (st, out) /\
    (st = 0 \/ (st = -1 /\ exists bytes, accepts out bytes = false)).
Proof.
  unfold morse_usage, fprintf_stdout.
  destruct (accepts written (usage_fmt arg0)) eqn:E.
  - apply usage_loop_outcome; lia.
  - exists (-1), written. split; [reflexivity|]. right.
    split; [reflexivity | eexists; exact E].
Qed.

(** The tree drawn by [morse_usage] is the table: the labels on the
    lines below the legend, read row by row, are the 30 table entries
    from index 2 on, in order. *)
Theorem usage_tree_matches_table :
  tree_nodes = skipn 2 table_chars /\
  length tree_nodes = 30%nat.
Proof. split; vm_compute; reflexivity. Qed.
